(** * ReSpec "netage" profile: plugins and build script

    A shallow embedding of the profile's plugins
    ([netage/defaults], [netage/style] in its two revisions,
    [netage/informative]) and of the build script [tools/builder.js],
    with the properties stated about them.

    JavaScript objects used as string-keyed maps are [gmap string value];
    the DOM is a rose tree whose nodes are addressed by child-index paths;
    thrown exceptions are explicit completions next to the state reached.
    What the host knows and the sources at hand do not say (the case
    mapping and code units of characters beyond ASCII, the reading of a
    selector text with escapes) is a parameter, given as a class. *)

From Stdlib Require Import ZArith Ascii String.
From stdpp Require Import gmap strings list fin_maps pretty sorting.

Local Open Scope string_scope.
Local Open Scope list_scope.
Local Set Warnings "-register-all".

(** ** JavaScript values *)

Module Js.

(** The data a [respecConfig] object holds.  Numbers are the integral ones.
    A string is held as a sequence of bytes: an ASCII character is one byte
    below 128, any other character the bytes, all from 128 up, of its UTF-8
    encoding.  Two strings are equal exactly when their bytes are. *)
Inductive value :=
| VUndefined
| VNull
| VBool (b : bool)
| VNum (n : Z)
| VStr (s : string)
| VArr (items : list value)
| VObj (props : gmap string value).

Abbreviation object := (gmap string value).

(** [o.k]: reading a property that is absent gives [undefined]. *)
Definition get (o : object) (k : string) : value :=
  default VUndefined (o !! k).

(** ToBoolean. *)
Definition truthy (v : value) : bool :=
  match v with
  | VUndefined | VNull => false
  | VBool b => b
  | VNum n => negb (n =? 0)%Z
  | VStr s => negb (String.eqb s "")
  | VArr _ | VObj _ => true
  end.

(** [v === "lit"] and [v === false]. *)
Definition strict_eq_str (v : value) (lit : string) : bool :=
  match v with VStr s => String.eqb s lit | _ => false end.

Definition strict_eq_false (v : value) : bool :=
  match v with VBool false => true | _ => false end.

(** A string made of ASCII characters only. *)
Definition is_ascii_char (c : ascii) : bool := (nat_of_ascii c <? 128)%nat.

Definition is_ascii (s : string) : bool :=
  forallb is_ascii_char (list_ascii_of_string s).

(** What the engine does with a string that has a character beyond ASCII
    is read off the Unicode tables, which are not written out here:
    [upper_case s] is [s.toUpperCase()] and [code_units s] the strings
    [s[0]], [s[1]], ... of one UTF-16 code unit each, for such a string.
    Everything is stated for any value of them. *)
Class Unicode := {
  upper_case : string → string;
  code_units : string → list string }.

(** Index-keyed properties of an array or of a string: ["0"], ["1"], ... *)
Definition index_props {A} (f : A → value) (l : list A) : object :=
  list_to_map (imap (λ i x, (pretty i, f x)) l).

Definition char_value (c : ascii) : value := VStr (String c EmptyString).

(** The own enumerable properties copied by [...v] in an object literal
    and by [Object.assign]: those of an object, the indices of an array or
    of a string (one for each code unit), nothing for the other
    primitives. *)
Definition own_props `{Unicode} (v : value) : object :=
  match v with
  | VObj o => o
  | VArr l => index_props id l
  | VStr s =>
      if is_ascii s then index_props char_value (list_ascii_of_string s)
      else index_props VStr (code_units s)
  | _ => ∅
  end.

(** [{ ...acc, ...v }]: the properties of [v] override those collected. *)
Definition spread `{Unicode} (acc : object) (v : value) : object :=
  own_props v ∪ acc.

(** [Object.assign(target, source)]. *)
Definition assign (target source : object) : object := source ∪ target.

(** Letter case within ASCII: [a]..[z] become [A]..[Z] and no other
    character changes. *)
Definition upper_ascii (c : ascii) : ascii :=
  let n := nat_of_ascii c in
  if (97 <=? n)%nat && (n <=? 122)%nat then ascii_of_nat (n - 32) else c.

Fixpoint upper_ascii_string (s : string) : string :=
  match s with
  | EmptyString => EmptyString
  | String c r => String (upper_ascii c) (upper_ascii_string r)
  end.

(** [s.toUpperCase()]: on a string of ASCII characters the mapping above;
    on any other string (where a letter beyond ASCII may well become an
    ASCII capital, or two) what the engine's tables give. *)
Definition toUpperCase `{Unicode} (s : string) : string :=
  if is_ascii s then upper_ascii_string s else upper_case s.

End Js.

(** ** netage/defaults (second document of src/netage/linter.js) *)

Module Defaults.
Import Js.

Definition netageDefaults : object :=
  list_to_map
    [ ("lint", VObj {[ "privsec-section" := VBool true ]});
      ("pluralize", VBool true);
      ("doJsonLd", VBool false);
      ("license", VStr "w3c-software-doc");
      ("logos",
        VArr [ VObj (list_to_map
          [ ("src", VStr "https://docs.netage.nl/respec_resources/logo.png");
            ("alt", VStr "Netage");
            ("height", VNum 160);
            ("width", VNum 258);
            ("url", VStr "https://www.netage.nl/") ]) ]);
      ("xref", VBool true);
      ("prependW3C", VBool false) ].

Section Run.
(** [coreDefaults] (core/defaults) and [definitionMap] (core/dfn-map) are
    imported from the engine; [run] is studied for any value of them. *)
Context {unicode : Unicode}.
Variable coreDefaults : object.
Variable definitionMap : value.

(** The [lint] constant computed first by [run]. *)
Definition run_lint (conf : object) : value :=
  if strict_eq_false (get conf "lint") then VBool false
  else VObj (spread (spread (spread ∅ (get coreDefaults "lint"))
                            (get netageDefaults "lint"))
                    (get conf "lint")).

(** [run(conf)], returning the configuration object as mutated. *)
Definition run (conf : object) : object :=
  if strict_eq_str (get conf "specStatus") "unofficial" then conf
  else
    let lint := run_lint conf in
    let conf :=
      assign conf
        (<["lint" := lint]>
           (spread (spread (spread ∅ (VObj coreDefaults)) (VObj netageDefaults))
                   (VObj conf))) in
    assign conf {[ "definitionMap" := definitionMap ]}.

(** The nested union the lint mapping is said to be: the lint of the core
    defaults, of the profile defaults and of the user's configuration, a
    later one taking precedence on each key. *)
Definition lint_union (conf : object) : object :=
  own_props (get conf "lint")
    ∪ (own_props (get netageDefaults "lint")
       ∪ own_props (get coreDefaults "lint")).

End Run.

(** The recognized configuration keys: specification status, linting
    toggles, pluralization flag, license identifier, logo descriptors and
    cross-reference flag. *)
Definition recognized_keys : list string :=
  ["specStatus"; "lint"; "pluralize"; "license"; "logos"; "xref"].

End Defaults.

(** ** The document tree *)

Module Dom.

(** A node is an element (local name, content attributes, class tokens,
    children) or character data.  The root of a tree stands for the node the
    query is made on (the [document], or an element). *)
Inductive node :=
| Element (localName : string) (attributes : list (string * string))
          (classList : list string) (childNodes : list node)
| Text (data : string).

(** A node reference: the child indices leading to it from the root.  It
    plays the part of the JavaScript object reference to the node. *)
Abbreviation path := (list nat).

Definition children (n : node) : list node :=
  match n with Element _ _ _ ch => ch | Text _ => [] end.

Definition set_children (n : node) (ch : list node) : node :=
  match n with Element t a c _ => Element t a c ch | Text d => Text d end.

Definition tag_is (t : string) (n : node) : bool :=
  match n with Element t' _ _ _ => String.eqb t' t | Text _ => false end.

Fixpoint assoc (k : string) (l : list (string * string)) : option string :=
  match l with
  | [] => None
  | (k', v) :: r => if String.eqb k' k then Some v else assoc k r
  end.

Definition getAttribute (k : string) (n : node) : option string :=
  match n with Element _ a _ _ => assoc k a | Text _ => None end.

Definition has_class (c : string) (n : node) : bool :=
  match n with
  | Element _ _ cl _ => existsb (String.eqb c) cl
  | Text _ => false
  end.

Fixpoint lookup_path (p : path) (n : node) : option node :=
  match p with
  | [] => Some n
  | i :: r => children n !! i ≫= lookup_path r
  end.

(** *** Selectors *)

Inductive simple_selector :=
| SType (t : string)              (* [t] *)
| SClass (c : string)             (* [.c] *)
| SAttr (k v : string).           (* [[k=v]] *)

(** A compound selector is a conjunction; a selector list a disjunction. *)
Definition selector := list (list simple_selector).

Definition matches_simple (n : node) (s : simple_selector) : bool :=
  match s with
  | SType t => tag_is t n
  | SClass c => has_class c n
  | SAttr k v =>
      match getAttribute k n with
      | Some v' => String.eqb v' v
      | None => false
      end
  end.

Definition matches (sel : selector) (n : node) : bool :=
  existsb (forallb (matches_simple n)) sel.

(** Paths, in document order, of the nodes of the tree selected by [f],
    the root included. *)
Fixpoint matching (f : node → bool) (n : node) : list path :=
  (if f n then [[]] else []) ++
  match n with
  | Element _ _ _ ch =>
      mjoin (M:=list) (imap (λ i ps, cons i <$> ps) (matching f <$> ch))
  | Text _ => []
  end.

(** [n.querySelectorAll(sel)]: the descendants of [n] that match, in
    document order; [n.querySelector(sel)]: the first of them, or [null]. *)
Definition querySelectorAll (sel : selector) (n : node) : list path :=
  mjoin (M:=list)
    (imap (λ i ps, cons i <$> ps) (matching (matches sel) <$> children n)).

Definition querySelector (sel : selector) (n : node) : option path :=
  head (querySelectorAll sel n).

(** *** Mutations *)

(** [ref.after(new)]: [new] becomes the next sibling of the node at [p];
    a node without a parent is left alone. *)
Fixpoint after (p : path) (new : node) (root : node) : node :=
  match p with
  | [] => root
  | i :: r =>
      match r with
      | [] =>
          if decide (i < length (children root))
          then set_children root
                 (take (S i) (children root) ++ new :: drop (S i) (children root))
          else root
      | _ => set_children root (alter (after r new) i (children root))
      end
  end.

(** Where a reference [q] points once a sibling has been inserted right
    after the node at [p]: the later siblings of that node, and what is
    below them, move one place to the right. *)
Fixpoint shift (p q : path) : path :=
  match p, q with
  | i :: pr, j :: qr =>
      match pr with
      | [] => if decide (i < j) then S j :: qr else q
      | _ => if decide (i = j) then j :: shift pr qr else q
      end
  | _, _ => q
  end.

(** The node is taken out of the tree (it is about to be inserted elsewhere). *)
Fixpoint detach (p : path) (root : node) : node :=
  match p with
  | [] => root
  | i :: r =>
      match r with
      | [] => set_children root (delete i (children root))
      | _ => set_children root (alter (detach r) i (children root))
      end
  end.

(** The reference to the next sibling. *)
Fixpoint next_sibling (p : path) : path :=
  match p with
  | [] => []
  | i :: r => match r with [] => [S i] | _ => i :: next_sibling r end
  end.

(** The [t]-th sibling after the node. *)
Fixpoint later_sibling (t : nat) (p : path) : path :=
  match t with
  | 0 => p
  | S t' => next_sibling (later_sibling t' p)
  end.

(** The element itself, its children left out. *)
Definition label (n : node) : node := set_children n [].

(** Document order: an ancestor comes before its descendants, and a node
    before its later siblings and what is below them. *)
Fixpoint precedes (p q : path) : Prop :=
  match p, q with
  | [], [] => False
  | [], _ :: _ => True
  | _ :: _, [] => False
  | i :: pr, j :: qr => i < j ∨ (i = j ∧ precedes pr qr)
  end.

(** The paths of matches found below the children of a node, each child's
    matches under the index [g i] given to it. *)
Definition indexed (g : nat → nat) (ls : list (list path)) : list path :=
  mjoin (M:=list) (imap (λ i ps, cons (g i) <$> ps) ls).

End Dom.

(** ** netage/informative (src/netage/informative.js) *)

Module Informative.
Import Dom.

(** ["section.informative"] and ["h2, h3, h4, h5, h6"]. *)
Definition section_informative : selector :=
  [[SType "section"; SClass "informative"]].

Definition heading_levels : selector :=
  [[SType "h2"]; [SType "h3"]; [SType "h4"]; [SType "h5"]; [SType "h6"]].

(** The node built by the template literal
    [<p><em>This section is non-normative.</em></p>]; every evaluation of
    the template gives a fresh copy. *)
Definition annotation : node :=
  Element "p" [] [] [Element "em" [] [] [Text "This section is non-normative."]].

Definition is_annotation (n : node) : bool :=
  match n with
  | Element t [] [] [Element t' [] [] [Text d]] =>
      String.eqb t "p" && String.eqb t' "em"
      && String.eqb d "This section is non-normative."
  | _ => false
  end.

(** [informative.querySelector("h2, h3, h4, h5, h6")] for the section at
    [s], as a reference from the root. *)
Definition heading_of (doc : node) (s : path) : option path :=
  n ← lookup_path s doc; h ← querySelector heading_levels n; Some (s ++ h).

(** [Array.from(querySelectorAll(..)).map(..).filter(heading => heading)] *)
Definition located_headings (doc : node) : list path :=
  omap (heading_of doc) (querySelectorAll section_informative doc).

(** [.forEach(heading => heading.after(..))] over the array [refs] of
    references: [k] is the index of the next heading to visit and [n] the
    number of those left.  Every reference of the array keeps pointing to
    its node while siblings are inserted. *)
Fixpoint forEach_after (k n : nat) (refs : list path) (doc : node)
  : node * list path :=
  match n with
  | 0 => (doc, refs)
  | S n' =>
      match refs !! k with
      | Some h =>
          forEach_after (S k) n' (shift h <$> refs) (after h annotation doc)
      | None => (doc, refs)
      end
  end.

(** [run()] on the document [doc]: the document afterwards, with the
    references to the located headings in it. *)
Definition run_refs (doc : node) : node * list path :=
  let refs := located_headings doc in
  forEach_after 0 (length refs) refs doc.

Definition run (doc : node) : node := (run_refs doc).1.

(** Number of annotation paragraphs in a tree. *)
Fixpoint count_annotations (n : node) : nat :=
  (if is_annotation n then 1 else 0) +
  match n with
  | Element _ _ _ ch => sum_list (count_annotations <$> ch)
  | Text _ => 0
  end.

(** The marked sections in which a heading is found. *)
Definition sections_with_heading (doc : node) : list path :=
  filter (λ s, is_Some (heading_of doc s))
         (querySelectorAll section_informative doc).

(** The reference to the previous sibling, when there is one. *)
Fixpoint previous_sibling (p : path) : option path :=
  match p with
  | [] => None
  | i :: r =>
      match r with
      | [] => match i with 0 => None | S j => Some [j] end
      | _ => cons i <$> previous_sibling r
      end
  end.

(** How many times a reference occurs in an array of references, and the
    number of marked sections for which the heading at [h] is the one
    located. *)
Definition occurrences (q : path) (l : list path) : nat :=
  length (filter (λ x, x = q) l).

Definition sharing (doc : node) (h : path) : nat :=
  occurrences h (located_headings doc).

(** The headings visited so far are each followed by as many annotation
    paragraphs as the times they were visited. *)
Definition annotated (k : nat) (refs : list path) (doc : node) : Prop :=
  ∀ q t, (1 ≤ t ≤ occurrences q (take k refs))%nat →
         lookup_path (later_sibling t q) doc = Some annotation.

(** Where a reference [q] to some other node, held while the loop runs,
    points after it. *)
Fixpoint follow (k n : nat) (refs : list path) (q : path) : path :=
  match n with
  | 0 => q
  | S n' =>
      match refs !! k with
      | Some h => follow (S k) n' (shift h <$> refs) (shift h q)
      | None => q
      end
  end.

Definition run_follow (doc : node) (q : path) : path :=
  let refs := located_headings doc in
  follow 0 (length refs) refs q.

(** Neither the node nor anything below it is a heading of level 2 to 6. *)
Definition no_heading_in (m : node) : Prop :=
  ∀ r m', lookup_path r m = Some m' → matches heading_levels m' = false.

(** There is a heading of level 2 to 6 at [h], below the root. *)
Definition heading_at (doc : node) (h : path) : Prop :=
  h ≠ [] ∧ ∃ m, lookup_path h doc = Some m ∧ matches heading_levels m = true.

(** Every annotation paragraph of the document comes right after a
    heading of level 2 to 6. *)
Definition each_annotation_follows_heading (doc : node) : Prop :=
  ∀ a n, lookup_path a doc = Some n → is_annotation n = true →
    ∃ h m, previous_sibling a = Some h ∧ lookup_path h doc = Some m ∧
           matches heading_levels m = true.

End Informative.

(** ** The style plugin, src/netage/style.js, and what it runs against *)

Module Style.
Import Js Dom.

(** *** The page, the pub/sub hub and thrown errors *)

Inductive error :=
| TypeError (message : string)
| ReferenceError (message : string)
| SyntaxError (message : string).

(** The line the console shows for an error. *)
Definition error_text (e : error) : string :=
  match e with
  | TypeError m => "TypeError: " +:+ m
  | ReferenceError m => "ReferenceError: " +:+ m
  | SyntaxError m => "SyntaxError: " +:+ m
  end.

(** How a call ends: it returns, or it throws. *)
Inductive completion :=
| Normal
| Throw (e : error).

(** What is published with an event: nothing, a message, or the document
    being exported (its head children). *)
Inductive payload :=
| NoData
| Message (text : string)
| ExportDoc (exportHead : list node).

(** The closures this file makes to serve as event handlers:
    [() => attachFixupScript(document, version)] and the function returned
    by [styleMover(linkURL)]. *)
Inductive handler :=
| AttachFixupScript (version : string)
| StyleMover (linkURL : string).

Record subscription := Subscription {
  topic : string;
  callback : handler;
  once : bool }.

Record world := World {
  conf : object;                        (* the respecConfig object *)
  head : list node;                     (* children of document.head *)
  body : list node;                     (* children of document.body *)
  location_hash : string;               (* location.hash *)
  onload_navigations : list string;     (* load listeners put on scripts *)
  subscriptions : list subscription;    (* the hub's registered handlers *)
  published : list (string * payload);  (* events published so far *)
  console : list string }.

Definition with_conf (c : object) (w : world) : world :=
  World c (head w) (body w) (location_hash w) (onload_navigations w)
        (subscriptions w) (published w) (console w).

Definition with_head (h : list node) (w : world) : world :=
  World (conf w) h (body w) (location_hash w) (onload_navigations w)
        (subscriptions w) (published w) (console w).

Definition with_body (b : list node) (w : world) : world :=
  World (conf w) (head w) b (location_hash w) (onload_navigations w)
        (subscriptions w) (published w) (console w).

Definition with_onload (l : list string) (w : world) : world :=
  World (conf w) (head w) (body w) (location_hash w) l
        (subscriptions w) (published w) (console w).

Definition with_subscriptions (s : list subscription) (w : world) : world :=
  World (conf w) (head w) (body w) (location_hash w) (onload_navigations w)
        s (published w) (console w).

Definition with_published (p : list (string * payload)) (w : world) : world :=
  World (conf w) (head w) (body w) (location_hash w) (onload_navigations w)
        (subscriptions w) p (console w).

Definition with_console (c : list string) (w : world) : world :=
  World (conf w) (head w) (body w) (location_hash w) (onload_navigations w)
        (subscriptions w) (published w) c.

(** The head element around its children, for queries. *)
Definition head_element (children : list node) : node :=
  Element "head" [] [] children.

(** *** Functions of src/netage/style.js *)

Definition attachFixupScript (version : string) (w : world) : world :=
  let script :=
    Element "script"
      [("src", "https://www.w3.org/scripts/TR/" +:+ version +:+ "/fixup.js")]
      [] [] in
  let w :=
    if negb (String.eqb (location_hash w) "")
    then with_onload (onload_navigations w ++ [location_hash w]) w
    else w in
  with_body (body w ++ [script]) w.

(** The double quote, removed from the viewport content. *)
Definition double_quote : ascii := ascii_of_nat 34.

Fixpoint remove_quotes (s : string) : string :=
  match s with
  | EmptyString => EmptyString
  | String c r =>
      if Ascii.eqb c double_quote then remove_quotes r
      else String c (remove_quotes r)
  end.

Definition contentProps : list (string * string) :=
  [("width", "device-width"); ("initial-scale", "1"); ("shrink-to-fit", "no")].

Definition createBaseStyle : node :=
  Element "link"
    [("rel", "stylesheet");
     ("href", "https://www.w3.org/StyleSheets/TR/2016/base.css")]
    ["removeOnSave"] [].

Record hint_options := HintOptions {
  hint : string;
  href : string;
  as_ : option string }.

Definition resourceHints : list hint_options :=
  [ HintOptions "preconnect" "https://www.netage.nl" None;
    HintOptions "preload" "https://www.w3.org/scripts/TR/2016/fixup.js"
                (Some "script");
    HintOptions "preload" "https://www.w3.org/StyleSheets/TR/2016/base.css"
                (Some "style");
    HintOptions "preload"
                "https://cloudbox.netage.nl/f/53b55b7650994d1f8528/?dl=1"
                (Some "image") ].

(** Modelled from the spec: [createResourceHint] of core/utils, which is
    not part of the sources at hand.  A resource hint is a [link] element
    carrying the hint as [rel], the target as [href] and the kind of
    resource as [as]. *)
Definition createResourceHint (o : hint_options) : node :=
  Element "link"
    ([("rel", hint o); ("href", href o)] ++
     match as_ o with Some a => [("as", a)] | None => [] end)
    [] [].

(** The children of the fragment built by [createResourceHints()]. *)
Definition createResourceHints : list node :=
  createResourceHint <$> resourceHints.

Definition meta_viewport : selector := [[SType "meta"; SAttr "name" "viewport"]].

(** The [meta] elements named [viewport] of a head, given by its children. *)
Definition viewport_metas (children : list node) : list path :=
  querySelectorAll meta_viewport (head_element children).

(** The selector text [styleMover] builds by putting the URL between the
    quotes of [head link[href=".."]], and the selector that text stands
    for when the URL is plain: the [link] elements whose [href] is the
    URL. *)
Definition link_selector_text (linkURL : string) : string :=
  "head link[href=" +:+ String double_quote (linkURL +:+ String double_quote "]").

Definition link_with_href (url : string) : selector :=
  [[SType "link"; SAttr "href" url]].

(** A plain URL: printable ASCII characters, none of them the double quote
    or the backslash.  Between the quotes of a selector such a text stands
    for itself.  Any other character may end the string early, escape what
    follows it or make the text no selector at all. *)
Definition plain_char (c : ascii) : bool :=
  let n := nat_of_ascii c in
  (32 <=? n)%nat && (n <=? 126)%nat && negb (n =? 34)%nat && negb (n =? 92)%nat.

Definition plain (url : string) : bool :=
  forallb plain_char (list_ascii_of_string url).

(** What [exportDoc.querySelector] finds: nothing, an element of the head
    (by its path below the head) or an element from elsewhere in the
    exported document. *)
Inductive found :=
| NoMatch
| InHead (p : path)
| Elsewhere (n : node).

(** The selector engine on a text that the model does not read itself:
    [querySelector_text text exportHead] is what
    [exportDoc.querySelector(text)] finds in the document with that head,
    [None] when the text is no selector and the engine throws a
    [SyntaxError].  Everything is stated for any such engine. *)
Class SelectorEngine := {
  querySelector_text : string → list node → option found }.

Section Host.
Context {unicode : Unicode} {engine : SelectorEngine}.

(** [exportDoc.querySelector(`head link[href="${linkURL}"]`)] *)
Definition find_link (linkURL : string) (exportHead : list node) : option found :=
  if plain linkURL then
    Some match querySelector (link_with_href linkURL) (head_element exportHead) with
         | Some p => InHead p
         | None => NoMatch
         end
  else querySelector_text (link_selector_text linkURL) exportHead.

(** [styleMover(linkURL)] applied to the exported document: the link found
    is moved to the end of the head; [append(null)], when there is none,
    appends the text ["null"]; a text that is no selector makes
    [querySelector] throw before anything is touched. *)
Definition styleMover (linkURL : string) (exportHead : list node)
  : error + list node :=
  let h := head_element exportHead in
  match find_link linkURL exportHead with
  | Some (InHead p) =>
      match lookup_path p h with
      | Some w3cStyle => inr (children (detach p h) ++ [w3cStyle])
      | None => inr exportHead
      end
  | Some (Elsewhere w3cStyle) => inr (exportHead ++ [w3cStyle])
  | Some NoMatch => inr (exportHead ++ [Text "null"])
  | None => inl (SyntaxError (link_selector_text linkURL))
  end.

(** Modelled from the spec: [linkCSS] of core/utils, which is not part of
    the sources at hand; it injects a stylesheet link for the URL into
    the document head, after what the head holds. *)
Definition stylesheet_link (url : string) : node :=
  Element "link" [("rel", "stylesheet"); ("href", url)] [] [].

Definition linkCSS (url : string) (w : world) : world :=
  with_head (head w ++ [stylesheet_link url]) w.

(** Modelled from the spec: [sub] of core/pubsubhub, which is not part of
    the sources at hand; it registers a handler for a named event, to run
    once only when asked so. *)
Definition sub (t : string) (cb : handler) (once_ : bool) (w : world) : world :=
  with_subscriptions (subscriptions w ++ [Subscription t cb once_]) w.

(** A handler called by the hub.  A handler that throws (the style mover
    given something that is no document, or a URL that makes no selector)
    is reported on the console and does not stop the publisher. *)
Definition call_handler (h : handler) (data : payload) (w : world)
  : world * payload :=
  match h, data with
  | AttachFixupScript version, _ => (attachFixupScript version w, data)
  | StyleMover url, ExportDoc hd =>
      match styleMover url hd with
      | inr hd' => (w, ExportDoc hd')
      | inl e => (with_console (console w ++ [error_text e]) w, data)
      end
  | StyleMover _, _ =>
      (with_console (console w ++ ["TypeError: exportDoc.querySelector is not a function"]) w,
       data)
  end.

Fixpoint deliver (subs : list subscription) (data : payload) (w : world)
  : world * payload :=
  match subs with
  | [] => (w, data)
  | s :: r =>
      let '(w', data') := call_handler (callback s) data w in
      deliver r data' w'
  end.

(** Modelled from the spec: [pub] of core/pubsubhub, which is not part of
    the sources at hand.  The event is delivered synchronously to the
    handlers registered for it at publish time; a run-once handler is
    unregistered as it fires. *)
Definition pub (t : string) (data : payload) (w : world) : world * payload :=
  let due := filter (λ s, topic s = t) (subscriptions w) in
  let kept := filter (λ s, ¬ (topic s = t ∧ once s = true)) (subscriptions w) in
  deliver due data
    (with_subscriptions kept (with_published (published w ++ [(t, data)]) w)).

Section Load.
(** [toKeyValuePairs] of core/utils is not part of the sources at hand;
    the module-level code is studied for any such function. *)
Variable toKeyValuePairs : list (string * string) → string.

Definition createMetaViewport : node :=
  Element "meta"
    [("name", "viewport");
     ("content", remove_quotes (toKeyValuePairs contentProps))]
    [] [].

(** The statements run when the module is loaded. *)
Definition load (w : world) : world :=
  let elements := createResourceHints in
  let elements := elements ++ [createBaseStyle] in
  let elements :=
    match querySelector meta_viewport (head_element (head w)) with
    | None => createMetaViewport :: elements
    | Some _ => elements
    end in
  with_head (elements ++ head w) w.
End Load.

(** The [switch] of [run] on the upper-cased status. *)
Definition select_style (status : string) : string :=
  if String.eqb status "NETAGE-CV" then
    "" +:+ "https://netage.github.io/respec_resources/styles/NETAGE-CV.css"
  else if String.eqb status "NETAGE-LD" then
    "" +:+ "https://netage.github.io/respec_resources/styles/NETAGE-LD.css"
  else if String.eqb status "NETAGE-FINAL" then
    "" +:+ "https://netage.github.io/respec_resources/styles/NETAGE-FINAL.css"
  else if String.eqb status "NETAGE-BASIC" then
    "" +:+ "https://netage.github.io/respec_resources/styles/NETAGE-BASIC.css"
  else "https://netage.github.io/respec_resources/styles/NETAGE-BASIC.css".

Definition warn : string :=
  "`respecConfig.specStatus` missing. Defaulting to 'NETAGE-BASIC'.".

(** The recognized status codes, and the stylesheet a status stands for
    among those found under [styles]: the one named after the code when the
    status, in upper case, is a recognized code, the [NETAGE-BASIC] one
    otherwise. *)
Definition recognized_codes : list string :=
  ["NETAGE-CV"; "NETAGE-LD"; "NETAGE-FINAL"; "NETAGE-BASIC"].

Definition stylesheet_for (styles : string) (status : value) : string :=
  match status with
  | VStr s =>
      if decide (toUpperCase s ∈ recognized_codes)
      then styles +:+ toUpperCase s +:+ ".css"
      else styles +:+ "NETAGE-BASIC.css"
  | _ => styles +:+ "NETAGE-BASIC.css"
  end.

Definition styles : string := "https://netage.github.io/respec_resources/styles/".

(** Modelled from the spec: the export lifecycle event, published by the
    exporter, which is not part of the sources at hand.  The event
    ["beforesave"] carries the document about to be saved, here the page as
    it stands; the head of the saved document is the result. *)
Definition export_head (w : world) : list node :=
  match (pub "beforesave" (ExportDoc (head w)) w).2 with
  | ExportDoc h => h
  | _ => head w
  end.

(** [run(conf)], with [conf] the configuration of the page. *)
Definition run (w : world) : world * completion :=
  let w :=
    if negb (truthy (get (conf w) "specStatus")) then
      let w := with_conf (<["specStatus" := VStr "NETAGE-BASIC"]> (conf w)) w in
      (pub "warn" (Message warn) w).1
    else w in
  match get (conf w) "specStatus" with
  | VStr status =>
      let styleFile := select_style (toUpperCase status) in
      let w := with_console (console w ++ [styleFile]) w in
      let w :=
        if negb (truthy (get (conf w) "noToc"))
        then sub "end-all" (AttachFixupScript "2016") true w
        else w in
      (linkCSS styleFile w, Normal)
  | _ =>
      (* a value that is no string has no [toUpperCase] to call *)
      (w, Throw (TypeError "conf.specStatus.toUpperCase is not a function"))
  end.

End Host.


End Style.

(** ** The style plugin, revision of src/unnamed/part_000
       (module name ["netage/style"]) *)

Module NetageStyle.
Import Js Dom.
Export Style (error, completion, payload, handler, subscription, world).

Definition createBaseStyle : node :=
  Element "link"
    [("rel", "stylesheet");
     ("href", "https://docs.netage.nl/respec_resources/styles/base.css")]
    ["removeOnSave"] [].

Definition resourceHints : list Style.hint_options :=
  [ Style.HintOptions "preload" "https://www.w3.org/scripts/TR/2016/fixup.js"
                      (Some "script");
    Style.HintOptions "preload"
                      "https://docs.netage.nl/respec_resources/styles/base.css"
                      (Some "style") ].

Definition createResourceHints : list node :=
  Style.createResourceHint <$> resourceHints.

Section Load.
Variable toKeyValuePairs : list (string * string) → string.

(** The statements run when the module is loaded; [createMetaViewport] is
    the same function as in src/netage/style.js. *)
Definition load (w : world) : world :=
  let elements := createResourceHints in
  let elements := elements ++ [createBaseStyle] in
  let elements :=
    match querySelector Style.meta_viewport (Style.head_element (Style.head w)) with
    | None => Style.createMetaViewport toKeyValuePairs :: elements
    | Some _ => elements
    end in
  Style.with_head (elements ++ Style.head w) w.
End Load.

Definition select_style (status : string) : string :=
  if String.eqb status "NETAGE-CV" then
    "" +:+ "https://docs.netage.nl/respec_resources/styles/NETAGE-CV.css"
  else if String.eqb status "NETAGE-LD" then
    "" +:+ "https://docs.netage.nl/respec_resources/styles/NETAGE-LD.css"
  else if String.eqb status "NETAGE-FINAL" then
    "" +:+ "https://docs.netage.nl/respec_resources/styles/NETAGE-FINAL.css"
  else if String.eqb status "NETAGE-BASIC" then
    "" +:+ "https://docs.netage.nl/respec_resources/styles/NETAGE-BASIC.css"
  else "https://docs.netage.nl/respec_resources/styles/NETAGE-BASIC.css".

Definition warn : string :=
  "`respecConfig.specStatus` missing. Defaulting to 'base'.".

Definition styles : string := "https://docs.netage.nl/respec_resources/styles/".

Section Host.
Context {unicode : Unicode} {engine : Style.SelectorEngine}.

(** [run(conf)].  The last statement, [sub("beforesave", moveStyle)], names
    a [moveStyle] that the module neither declares nor imports: evaluating
    the argument throws before [sub] is called. *)
Definition run (w : world) : world * completion :=
  let w :=
    if negb (truthy (get (Style.conf w) "specStatus")) then
      let w := Style.with_conf (<["specStatus" := VStr "base"]> (Style.conf w)) w in
      (Style.pub "warn" (Style.Message warn) w).1
    else w in
  match get (Style.conf w) "specStatus" with
  | VStr status =>
      let styleFile := select_style (toUpperCase status) in
      let w := Style.linkCSS styleFile w in
      (w, Style.Throw (Style.ReferenceError "moveStyle is not defined"))
  | _ =>
      (w, Style.Throw (Style.TypeError "conf.specStatus.toUpperCase is not a function"))
  end.

End Host.

End NetageStyle.

(** ** The build script, src/unnamed/part_001 (tools/builder.js) *)

Module Builder.

Inductive error :=
| TypeError (message : string)        (* [new TypeError(..)] *)
| ModuleNotFound (request : string)   (* thrown by [require.resolve] *)
| CompileErrors (errors : list string) (* [new Error(stats.toJson().errors)] *)
| NoSuchFile (file : string)          (* a rejected file-system promise *)
| LibraryError (message : string).    (* thrown by a library called *)

(** The files written and read, by name, and the console. *)
Record state := State {
  fs : gmap string string;
  console : list string }.

(** An asynchronous function awaited to its end: from a state, it returns
    a value or throws, and leaves a state. *)
Definition M (A : Type) : Type := state → (error + A) * state.

Definition ret {A} (a : A) : M A := λ s, (inr a, s).
Definition throw {A} (e : error) : M A := λ s, (inl e, s).

#[global] Instance M_bind : MBind M := λ A B f m s,
  match m s with
  | (inr a, s') => f a s'
  | (inl e, s') => (inl e, s')
  end.

Definition log (line : string) : M unit :=
  λ s, (inr tt, State (fs s) (console s ++ [line])).

Definition readFile (file : string) : M string :=
  λ s, match fs s !! file with
       | Some content => (inr content, s)
       | None => (inl (NoSuchFile file), s)
       end.

Definition writeFile (file content : string) : M unit :=
  λ s, (inr tt, State (<[file := content]> (fs s)) (console s)).

Definition copyFile (src dest : string) : M unit :=
  content ← readFile src; writeFile dest content.

Definition newline : string := String (ascii_of_nat 10) EmptyString.
Definition dq : string := String (ascii_of_nat 34) EmptyString.

(** [s.replace(pat, rep)] with a string pattern: the first occurrence. *)
Fixpoint replace_first (pat rep s : string) : string :=
  if String.prefix pat s
  then rep +:+ String.substring (String.length pat)
                                (String.length s - String.length pat) s
  else match s with
       | EmptyString => EmptyString
       | String c r => String c (replace_first pat rep r)
       end.

Record stats := Stats {
  hasErrors : bool;
  errors : list string }.

(** The configuration handed to the bundler. *)
Record config := Config {
  mode : string;
  entry : string;
  output_path : string;
  output_filename : string;
  rule_test : string;
  rule_use : string;
  loader_alias : string * string;
  devtool : string;
  maxChunks : nat;
  ignored : string }.

Record parsedArgs := ParsedArgs {
  help : bool;
  profile : option string;
  debug : bool }.

(** How the process ends: [process.exit(code)], or the function returns
    and the process is left to end by itself. *)
Inductive ending :=
| Exit (code : Z)
| Returned.

(** [!name] for a name that is a string or [undefined]. *)
Definition missing (name : option string) : bool :=
  match name with
  | None => true
  | Some n => String.eqb n ""
  end.

(** The text printed for an error ([err.stack]). *)
Definition stack (e : error) : string :=
  match e with
  | TypeError m => "TypeError: " +:+ m
  | ModuleNotFound r => "Error: Cannot find module '" +:+ r +:+ "'"
  | CompileErrors es => "Error: " +:+ String.concat "," es
  | NoSuchFile f => "Error: ENOENT: no such file or directory, open '" +:+ f +:+ "'"
  | LibraryError m => "Error: " +:+ m
  end.

(** The state once [build] has printed its first line for [name]. *)
Definition logged (name : string) (s : state) : state :=
  State (fs s)
        (console s ++
         ["Generating " +:+ ("respec-" +:+ name +:+ ".js") +:+ ". Please wait..."]).

(** [path.dirname]: what precedes the last separator. *)
Fixpoint before_last_slash (s : string) : option string :=
  match s with
  | EmptyString => None
  | String c r =>
      match before_last_slash r with
      | Some d => Some (String c d)
      | None => if Ascii.eqb c "/" then Some EmptyString else None
      end
  end.

Definition dirname (s : string) : string :=
  match before_last_slash s with
  | Some EmptyString => "/"
  | Some d => d
  | None => "."
  end.

Section Script.
(** What the script is run with: the directory of the project (the parent
    of [__dirname]), the modules [require.resolve] finds, the bundler, the
    argument parser, the usage text and the reading of the version out of
    the text of package.json. *)
Variable root : string.
Variable resolve : string → option string.
Variable webpack : config → M stats.
Variable commandLineArgs : list string → error + parsedArgs.
Variable usage : string.
Variable version_of : string → error + string.

Definition require_resolve (request : string) : M string :=
  match resolve request with
  | Some file => ret file
  | None => throw (ModuleNotFound request)
  end.

Definition appendBoilerplate (outPath version name : string) : M unit :=
  let mapPath := dirname outPath +:+ "/respec-" +:+ name +:+ ".js.map" in
  optimizedJs ← readFile outPath;
  sourceMap ← readFile mapPath;
  let respecJs :=
    dq +:+ "use strict" +:+ dq +:+ ";" +:+ newline +:+
    "window.respecVersion = " +:+ dq +:+ version +:+ dq +:+ ";" +:+ newline +:+
    optimizedJs in
  let respecJsMap :=
    replace_first (dq +:+ "mappings" +:+ dq +:+ ":" +:+ dq)
                  (dq +:+ "mappings" +:+ dq +:+ ":" +:+ dq +:+ ";;") sourceMap in
  _ ← writeFile outPath respecJs;
  writeFile mapPath respecJsMap.

Definition getRespecVersion : M string :=
  content ← readFile (root +:+ "/package.json");
  match version_of content with
  | inr v => ret v
  | inl e => throw e
  end.

(** The [config] object of [build]. *)
Definition build_config (name : string) (debug_ : bool)
    (entry_ shortcut : string) : config :=
  Config (if debug_ then "none" else "production") entry_
         (root +:+ "/builds") ("respec-" +:+ name +:+ ".js")
         shortcut "exports-loader?shortcut" ("text", "raw-loader")
         "source-map" 1
         "^\.\/asset-loader.js$|^jsdom$|^viperhtml$|idb\/build".

(** The module asked of [require.resolve] for a profile. *)
Definition profile_module (name : string) : string :=
  "../js/profile-" +:+ name +:+ ".js".

(** [Builder.build({ name, debug })] *)
Definition build (name : option string) (debug_ : bool) : M unit :=
  if missing name then throw (TypeError "name is required")
  else
    let name := default "" name in
    let buildPath := root +:+ "/builds" in
    let outFile := "respec-" +:+ name +:+ ".js" in
    let outPath := buildPath +:+ "/" +:+ outFile in
    _ ← log ("Generating " +:+ outFile +:+ ". Please wait...");
    buildVersion ← getRespecVersion;
    entry_ ← require_resolve (profile_module name);
    shortcut ← require_resolve "../js/shortcut.js";
    let config := build_config name debug_ entry_ shortcut in
    let buildDir := root +:+ "/builds" in
    let workerDir := root +:+ "/worker" in
    stats_ ← webpack config;
    if hasErrors stats_ then throw (CompileErrors (errors stats_))
    else
      _ ← appendBoilerplate outPath buildVersion name;
      copyFile (workerDir +:+ "/respec-worker.js")
               (buildDir +:+ "/respec-worker.js").

(** The function [run] called when the script is the main module, on the
    arguments of the command line. *)
Definition run (argv : list string) (s : state) : ending * state :=
  match commandLineArgs argv with
  | inl err =>
      (Exit 127, State (fs s) (console s ++ [usage; stack err]))
  | inr parsed =>
      if help parsed then (Exit 0, State (fs s) (console s ++ [usage]))
      else
        let name := profile parsed in
        if missing name then (Returned, s)
        else
          match build name (debug parsed) s with
          | (inl err, s') => (Exit 1, State (fs s') (console s' ++ [stack err]))
          | (inr _, s') => (Exit 0, s')
          end
  end.

End Script.

(** The text [appendBoilerplate] puts in front of the bundle, the key it
    looks for in the source map, the map for a bundle and the files that
    [build] reads and writes. *)
Definition banner (version : string) : string :=
  dq +:+ "use strict" +:+ dq +:+ ";" +:+ newline +:+
  "window.respecVersion = " +:+ dq +:+ version +:+ dq +:+ ";" +:+ newline.

Definition mappings_key : string := dq +:+ "mappings" +:+ dq +:+ ":" +:+ dq.

Definition shifted_map (sourceMap : string) : string :=
  replace_first (dq +:+ "mappings" +:+ dq +:+ ":" +:+ dq)
                (dq +:+ "mappings" +:+ dq +:+ ":" +:+ dq +:+ ";;") sourceMap.

Definition map_of (outPath name : string) : string :=
  dirname outPath +:+ "/respec-" +:+ name +:+ ".js.map".




End Builder.

(** ** Concrete inputs, on which the properties below are exercised *)

Module Samples.
Import Js Dom.

(** An engine for the examples.  Of the characters beyond ASCII it knows
    the dotless i (U+0131, the bytes 196 and 177), whose capital is the
    ASCII [I], in the one status spelled with it; a string beyond ASCII is
    otherwise its own upper case and a single code unit.  It takes no text
    with an escape or a stray quote for a selector. *)
Definition dotless_i : string :=
  String (ascii_of_nat 196) (String (ascii_of_nat 177) EmptyString).

Definition status_dotless : string := "netage-f" +:+ dotless_i +:+ "nal".

Definition sample_unicode : Unicode :=
  {| upper_case := λ s,
       if String.eqb s status_dotless then "NETAGE-FINAL" else s;
     code_units := λ s, [s] |}.

Definition sample_engine : Style.SelectorEngine :=
  {| Style.querySelector_text := λ _ _, None |}.

(** A user configuration marked unofficial that sets one lint rule. *)
Definition conf_unofficial : object :=
  {[ "specStatus" := VStr "unofficial";
     "lint" := VObj {[ "no-http-props" := VBool false ]} ]}.

(** A user configuration that sets one lint rule and one key of its own. *)
Definition conf_lint : object :=
  {[ "lint" := VObj {[ "no-http-props" := VBool false ]};
     "editors" := VStr "someone" ]}.

(** Core defaults with a lint mapping, as the engine has them. *)
Definition core_sample : object :=
  {[ "lint" := VObj {[ "no-http-props" := VBool true;
                       "check-punctuation" := VBool false ]};
     "specStatus" := VStr "base";
     "highlightVars" := VBool true ]}.

(** A page with an empty head and body, nothing registered on the hub,
    and the given configuration. *)
Definition page (c : object) : Style.world :=
  Style.World c [] [] "" [] [] [] [].

(** A script element, as another plugin may append to the head. *)
Definition late_script : node :=
  Element "script" [("src", "https://example.org/late.js")] [] [].

(** A function in the place of [toKeyValuePairs]. *)
Definition key_value_pairs (l : list (string * string)) : string :=
  String.concat ", " ((λ kv, kv.1 +:+ "=" +:+ kv.2) <$> l).

(** The document of the example: one informative section with its heading. *)
Definition doc_example : node :=
  Element "body" [] []
    [Element "section" [] ["informative"] [Element "h3" [] [] [Text "Foo"]]].

(** An informative section whose first heading is the heading of the
    informative section nested in it. *)
Definition doc_nested : node :=
  Element "body" [] []
    [Element "section" [] ["informative"]
       [Element "section" [] ["informative"] [Element "h3" [] [] [Text "Foo"]]]].

(** A marked section with a heading followed by one without. *)
Definition doc_mixed : node :=
  Element "body" [] []
    [Element "section" [] ["informative"] [Element "h2" [] [] [Text "Scope"]];
     Element "section" [] ["informative"] [Element "p" [] [] [Text "Aside."]]].

(** A project for the build script: its directory, the two modules that
    [require.resolve] finds, a bundler that writes the bundle and its map,
    one that reports a compile error, an argument parser and the reading
    of the version. *)
Definition project_root : string := "/respec".

Definition project_resolve (request : string) : option string :=
  if String.eqb request "../js/profile-netage.js"
  then Some "/respec/js/profile-netage.js"
  else if String.eqb request "../js/shortcut.js"
  then Some "/respec/js/shortcut.js"
  else None.

Definition bundler_ok (c : Builder.config) : Builder.M Builder.stats :=
  λ s,
    let out := Builder.output_path c +:+ "/" +:+ Builder.output_filename c in
    (inr (Builder.Stats false []),
     Builder.State (<[out := "bundle"]> (<[out +:+ ".map" := "map"]> (Builder.fs s)))
                   (Builder.console s)).

Definition bundler_errors (c : Builder.config) : Builder.M Builder.stats :=
  λ s, (inr (Builder.Stats true ["Module parse failed"]), s).

Definition parse_args (argv : list string) : Builder.error + Builder.parsedArgs :=
  match argv with
  | ["--help"] => inr (Builder.ParsedArgs true None false)
  | ["--profile"; name] => inr (Builder.ParsedArgs false (Some name) false)
  | _ => inl (Builder.LibraryError "UNKNOWN_OPTION")
  end.

Definition read_version (content : string) : Builder.error + string :=
  inr content.

Definition project_files : Builder.state :=
  Builder.State {[ "/respec/package.json" := "24.0.0";
                   "/respec/worker/respec-worker.js" := "worker" ]} [].


(** A marked section without a heading, alone in the document. *)
Definition doc_aside : node :=
  Element "body" [] []
    [Element "section" [] ["informative"] [Element "p" [] [] [Text "Aside."]]].

(** A source map as the bundler writes it, and the files of the project
    once the bundler has run. *)
Definition sample_map : string :=
  "{" +:+ Builder.mappings_key +:+ "AAAA;BBBB".

Definition built_files : Builder.state :=
  Builder.State {[ "/respec/builds/respec-netage.js" := "bundle";
                   "/respec/builds/respec-netage.js.map" := sample_map;
                   "/respec/worker/respec-worker.js" := "worker" ]} [].

End Samples.

(** * Properties *)

(** ** Trees, references and insertions *)

Module DomFacts.
Import Dom.

(** Induction on trees, with the hypothesis for every child. *)
Lemma node_forall_ind (P : node → Prop) :
  (∀ d, P (Text d)) →
  (∀ t a c ch, Forall P ch → P (Element t a c ch)) →
  ∀ n, P n.
Proof.
  intros HT HE. fix IH 1. intros [t a c ch|d]; [|apply HT].
  apply HE. induction ch as [|x ch IHch]; constructor; [apply IH | apply IHch].
Qed.

Lemma elem_of_indexed (g : nat → nat) (ls : list (list path)) (p : path) :
  p ∈ mjoin (M:=list) (imap (λ i ps, cons (g i) <$> ps) ls) ↔
  ∃ i ps p', ls !! i = Some ps ∧ p' ∈ ps ∧ p = g i :: p'.
Proof.
  rewrite list_elem_of_join. split.
  - intros (l & Hp & Hl). apply elem_of_lookup_imap in Hl as (i & ps & -> & Hi).
    apply list_elem_of_fmap in Hp as (p' & -> & Hp'). eauto 6.
  - intros (i & ps & p' & Hi & Hp' & ->).
    exists (cons (g i) <$> ps). split.
    + apply list_elem_of_fmap. eauto.
    + apply elem_of_lookup_imap. eauto.
Qed.

Lemma elem_of_matching f n p :
  p ∈ matching f n ↔ ∃ m, lookup_path p n = Some m ∧ f m = true.
Proof.
  revert p. induction n as [d|t a c ch IH] using node_forall_ind; intros p.
  - cbn. rewrite app_nil_r. destruct p as [|i r]; cbn.
    + destruct (f (Text d)) eqn:E.
      * rewrite list_elem_of_singleton. split; [eauto|done].
      * rewrite elem_of_nil. split; [done|]. intros (m & [= <-] & ?). congruence.
    + destruct (f (Text d)); [rewrite list_elem_of_singleton | rewrite elem_of_nil];
        (split; [done|]); intros (m & ? & ?); done.
  - cbn [matching]. rewrite elem_of_app, (elem_of_indexed id). split.
    + intros [H|(i & ps & p' & Hi & Hp' & ->)].
      * destruct (f (Element t a c ch)) eqn:E; [|by apply elem_of_nil in H].
        apply list_elem_of_singleton in H as ->. cbn. eauto.
      * apply list_lookup_fmap_Some in Hi as (x & -> & Hx).
        rewrite Forall_lookup in IH. apply (IH _ _ Hx) in Hp' as (m & Hm & Hf).
        exists m. cbn. rewrite Hx. cbn. done.
    + intros (m & Hm & Hf). destruct p as [|i r].
      * left. cbn in Hm. injection Hm as <-. rewrite Hf. by left.
      * right. cbn in Hm. destruct (ch !! i) as [x|] eqn:Hx; [|done]. cbn in Hm.
        exists i, (matching f x), r. split; [|split; [|done]].
        -- by rewrite list_lookup_fmap, Hx.
        -- rewrite Forall_lookup in IH. apply (IH _ _ Hx). eauto.
Qed.

Lemma elem_of_querySelectorAll sel n p :
  p ∈ querySelectorAll sel n ↔
  p ≠ [] ∧ ∃ m, lookup_path p n = Some m ∧ matches sel m = true.
Proof.
  unfold querySelectorAll. rewrite (elem_of_indexed id). split.
  - intros (i & ps & p' & Hi & Hp' & ->). split; [done|].
    apply list_lookup_fmap_Some in Hi as (x & -> & Hx).
    apply elem_of_matching in Hp' as (m & Hm & Hf).
    exists m. cbn. rewrite Hx. done.
  - intros (Hne & m & Hm & Hf). destruct p as [|i r]; [done|].
    cbn in Hm. destruct (children n !! i) as [x|] eqn:Hx; [|done]. cbn in Hm.
    exists i, (matching (matches sel) x), r. split; [|split; [|done]].
    + by rewrite list_lookup_fmap, Hx.
    + apply elem_of_matching. eauto.
Qed.

Lemma querySelector_Some sel n p :
  querySelector sel n = Some p →
  p ≠ [] ∧ ∃ m, lookup_path p n = Some m ∧ matches sel m = true.
Proof.
  unfold querySelector. intros H. apply head_Some_elem_of in H.
  by apply elem_of_querySelectorAll.
Qed.

Lemma lookup_path_app p q n :
  lookup_path (p ++ q) n = lookup_path p n ≫= lookup_path q.
Proof.
  revert n. induction p as [|i r IH]; intros n; [reflexivity|].
  cbn. destruct (children n !! i); cbn; [apply IH | reflexivity].
Qed.

Lemma children_Some_Element n i c :
  children n !! i = Some c → ∃ t a cl ch, n = Element t a cl ch.
Proof. destruct n; [eauto | done]. Qed.

Lemma label_set_children n ch : label (set_children n ch) = label n.
Proof. by destruct n. Qed.

(** The equations of the functions on paths. *)
Lemma shift_last i j qr :
  shift [i] (j :: qr) = if decide (i < j) then S j :: qr else j :: qr.
Proof. reflexivity. Qed.

Lemma shift_cons i i' pr j qr :
  shift (i :: i' :: pr) (j :: qr)
  = if decide (i = j) then j :: shift (i' :: pr) qr else j :: qr.
Proof. reflexivity. Qed.

Lemma after_last i new root :
  after [i] new root =
    if decide (i < length (children root))
    then set_children root
           (take (S i) (children root) ++ new :: drop (S i) (children root))
    else root.
Proof. reflexivity. Qed.

Lemma after_cons i i' pr new root :
  after (i :: i' :: pr) new root
  = set_children root (alter (after (i' :: pr) new) i (children root)).
Proof. reflexivity. Qed.

Lemma next_sibling_last i : next_sibling [i] = [S i].
Proof. reflexivity. Qed.

Lemma next_sibling_cons i i' pr :
  next_sibling (i :: i' :: pr) = i :: next_sibling (i' :: pr).
Proof. reflexivity. Qed.

Lemma lookup_path_cons i r n :
  lookup_path (i :: r) n = children n !! i ≫= lookup_path r.
Proof. reflexivity. Qed.

Lemma shift_self p : shift p p = p.
Proof.
  induction p as [|i [|j r] IH]; [done| |].
  - rewrite shift_last. by rewrite decide_False by lia.
  - rewrite shift_cons, decide_True by done. by rewrite IH.
Qed.

Lemma shift_nil_r p : shift p [] = [].
Proof. by destruct p. Qed.

Lemma length_shift p q : length (shift p q) = length q.
Proof.
  revert q. induction p as [|i [|i' r] IH]; intros [|j qr]; try done.
  - rewrite shift_last. by case_decide.
  - rewrite shift_cons. case_decide; [|done]. cbn [length]. by rewrite IH.
Qed.

Lemma shift_not_nil p q : q ≠ [] → shift p q ≠ [].
Proof.
  intros H E. apply (f_equal length) in E. rewrite length_shift in E.
  by destruct q.
Qed.

Lemma lookup_insert_sibling (ch : list node) i new j :
  i < length ch →
  (take (S i) ch ++ new :: drop (S i) ch) !! (if decide (i < j) then S j else j)
  = ch !! j.
Proof.
  intros Hi. case_decide.
  - rewrite lookup_app_r by (rewrite length_take; lia).
    rewrite length_take, Nat.min_l by lia.
    replace (S j - S i) with (S (j - S i)) by lia.
    rewrite lookup_cons_ne_0 by done. cbn [pred].
    rewrite lookup_drop. f_equal. lia.
  - rewrite lookup_app_l by (rewrite length_take; lia).
    apply lookup_take_lt. lia.
Qed.

(** A reference carried along an insertion points to the same element;
    the element is unchanged unless the insertion is below it. *)
Lemma lookup_after_shift p new q root m :
  is_Some (lookup_path p root) →
  lookup_path q root = Some m →
  ∃ m', lookup_path (shift p q) (after p new root) = Some m' ∧
        label m' = label m ∧
        (q = p ∨ ¬ q `prefix_of` p → m' = m).
Proof.
  revert q root m. induction p as [|i pr IH]; intros q root m Hp Hq.
  { exists m. destruct q; cbn; done. }
  destruct q as [|j qr].
  { cbn in Hq. injection Hq as <-. rewrite shift_nil_r. cbn [lookup_path].
    eexists. split; [done|]. split.
    - destruct pr; [rewrite after_last; case_decide | rewrite after_cons];
        by rewrite ?label_set_children.
    - intros [?|H]; [done|]. destruct H. apply prefix_nil. }
  rewrite lookup_path_cons in Hp, Hq.
  destruct (children root !! i) as [c|] eqn:Hc; [|by destruct Hp].
  cbn in Hp.
  destruct (children_Some_Element _ _ _ Hc) as (t & a & cl & ch & ->).
  cbn [children] in Hc, Hq.
  destruct pr as [|i' pr'].
  - (* the insertion is among the children of the root *)
    assert (Hi : i < length ch) by (by apply lookup_lt_Some in Hc).
    rewrite after_last, shift_last. cbn [children].
    destruct (decide (i < length ch)); [|lia].
    exists m. split; [|done].
    pose proof (lookup_insert_sibling ch i new j Hi) as E.
    destruct (decide (i < j)); rewrite lookup_path_cons;
      cbn [set_children children]; by rewrite E.
  - (* the insertion is below the child [i] *)
    rewrite after_cons, shift_cons. cbn [children].
    destruct (decide (i = j)) as [<-|Hij].
    + rewrite Hc in Hq. cbn in Hq.
      destruct (IH qr c m Hp Hq) as (m' & Hm' & Hl & He).
      exists m'. split; [|split; [done|]].
      * rewrite lookup_path_cons. cbn [set_children children].
        rewrite list_lookup_alter_eq, Hc. exact Hm'.
      * intros [[= ->]|H]; apply He; [by left|].
        right. intros Hpre. apply H. by apply prefix_cons.
    + exists m. split; [|done].
      rewrite lookup_path_cons. cbn [set_children children].
      by rewrite list_lookup_alter_ne.
Qed.

Lemma lookup_after_next p new root :
  p ≠ [] → is_Some (lookup_path p root) →
  lookup_path (next_sibling p) (after p new root) = Some new.
Proof.
  revert root. induction p as [|i pr IH]; intros root Hne Hp; [done|].
  rewrite lookup_path_cons in Hp.
  destruct (children root !! i) as [c|] eqn:Hc; [|by destruct Hp].
  cbn in Hp.
  destruct (children_Some_Element _ _ _ Hc) as (t & a & cl & ch & ->).
  cbn [children] in Hc.
  destruct pr as [|i' pr'].
  - assert (Hi : i < length ch) by (by apply lookup_lt_Some in Hc).
    rewrite after_last, next_sibling_last. cbn [children].
    rewrite decide_True by done.
    rewrite lookup_path_cons. cbn [set_children children].
    rewrite lookup_app_r by (rewrite length_take; lia).
    rewrite length_take, Nat.min_l by lia.
    by rewrite Nat.sub_diag.
  - rewrite after_cons, next_sibling_cons, lookup_path_cons.
    cbn [set_children children].
    rewrite list_lookup_alter_eq, Hc.
    by apply IH.
Qed.

Lemma shift_next_sibling p q :
  q ≠ p → q ≠ [] → shift p (next_sibling q) = next_sibling (shift p q).
Proof.
  revert q. induction p as [|i pr IH]; intros q Hqp Hq; [by destruct q|].
  destruct q as [|j qr]; [done|].
  destruct pr as [|i' pr']; destruct qr as [|j' qr'].
  - rewrite next_sibling_last, !shift_last.
    repeat case_decide; try done; try lia. destruct Hqp. f_equal. lia.
  - rewrite next_sibling_cons, !shift_last. case_decide; done.
  - rewrite next_sibling_last, !shift_cons, !shift_nil_r.
    repeat case_decide; done.
  - rewrite next_sibling_cons, !shift_cons. case_decide as Hij; [|done].
    subst j.
    assert (Hne : j' :: qr' ≠ i' :: pr') by congruence.
    rewrite (IH (j' :: qr') Hne) by done.
    pose proof (shift_not_nil (i' :: pr') (j' :: qr')) as Hs.
    destruct (shift (i' :: pr') (j' :: qr')) as [|x [|y l]] eqn:E;
      [by destruct Hs| |]; done.
Qed.

(** The number of matches is the sum over the children. *)
Lemma length_concat_imap (g : nat → nat) (ls : list (list path)) :
  length (mjoin (M:=list) (imap (λ i ps, cons (g i) <$> ps) ls))
    = sum_list (length <$> ls).
Proof.
  revert g. induction ls as [|l ls IH]; intros g; [reflexivity|].
  cbn. rewrite length_app, length_fmap. f_equal.
  apply (IH (g ∘ S)).
Qed.

Lemma length_querySelectorAll sel n :
  length (querySelectorAll sel n)
    = sum_list (length <$> (matching (matches sel) <$> children n)).
Proof. apply (length_concat_imap id). Qed.

Lemma sorted_indexed (g : nat → nat) (ls : list (list path)) :
  (∀ i j, i < j → g i < g j) →
  Forall (StronglySorted precedes) ls →
  StronglySorted precedes (mjoin (M:=list) (imap (λ i ps, cons (g i) <$> ps) ls)).
Proof.
  revert g. induction ls as [|l ls IH]; intros g Hg Hs; [constructor|].
  apply Forall_cons in Hs as [Hl Hls].
  rewrite imap_cons. cbn [mjoin list_join].
  apply StronglySorted_app. split; [|split].
  - intros x1 x2 H1 H2.
    apply list_elem_of_fmap in H1 as (a & -> & _).
    apply (elem_of_indexed (g ∘ S)) in H2 as (i & ps & b & _ & _ & ->).
    left. apply Hg. lia.
  - clear -Hl. induction Hl as [|a l Hl IHl Ha]; [constructor|].
    cbn. constructor; [done|].
    apply Forall_fmap. eapply Forall_impl; [exact Ha|].
    intros b Hb. cbn. right. done.
  - apply (IH (g ∘ S)); [|done]. intros i j Hij. apply Hg. lia.
Qed.

Lemma matching_sorted f n : StronglySorted precedes (matching f n).
Proof.
  induction n as [d|t a c ch IH] using node_forall_ind.
  - cbn. destruct (f _); repeat constructor.
  - cbn [matching]. apply StronglySorted_app. split; [|split].
    + intros x1 x2 H1 H2.
      destruct (f _); [|by apply elem_of_nil in H1].
      apply list_elem_of_singleton in H1 as ->.
      apply (elem_of_indexed id) in H2 as (i & ps & b & _ & _ & ->). done.
    + destruct (f _); repeat constructor.
    + apply (sorted_indexed id); [done|]. by apply Forall_fmap.
Qed.

(** [querySelector] gives the first match in document order. *)
Lemma querySelector_first sel n p q :
  querySelector sel n = Some p →
  q ∈ querySelectorAll sel n → q = p ∨ precedes p q.
Proof.
  unfold querySelector. intros Hp Hq.
  assert (S : StronglySorted precedes (querySelectorAll sel n)).
  { apply (sorted_indexed id); [done|].
    apply Forall_fmap, Forall_forall. intros x _. apply matching_sorted. }
  apply head_Some in Hp as [l' Hl']. rewrite Hl' in S, Hq.
  apply StronglySorted_cons in S as [S _].
  apply elem_of_cons in Hq as [->|Hq]; [by left|].
  right. rewrite Forall_forall in S. by apply S.
Qed.

End DomFacts.

(** ** netage/defaults *)

Module DefaultsSpec.
Import Js Defaults Samples.

Lemma strict_eq_str_spec v s : strict_eq_str v s = true ↔ v = VStr s.
Proof.
  destruct v; simpl; try (split; [discriminate | intros [=]]).
  rewrite String.eqb_eq. split; [congruence | intros [=]; done].
Qed.

Lemma strict_eq_false_spec v : strict_eq_false v = true ↔ v = VBool false.
Proof. destruct v as [| |[]| | | |]; simpl; split; done. Qed.

Lemma get_lookup (o : object) k v : o !! k = Some v → get o k = v.
Proof. unfold get. by intros ->. Qed.

Section Run.
Context {unicode : Unicode}.
Variable coreDefaults : object.
Variable definitionMap : value.

Local Abbreviation run := (run coreDefaults definitionMap).
Local Abbreviation run_lint := (run_lint coreDefaults).
Local Abbreviation lint_union := (lint_union coreDefaults).

(** Past the guard on ["unofficial"], the two [Object.assign] amount to two
    insertions into the union of the three mappings. *)
Lemma run_official (conf : object) :
  get conf "specStatus" ≠ VStr "unofficial" →
  run conf =
    <["definitionMap" := definitionMap]>
      (<["lint" := run_lint conf]> (conf ∪ (netageDefaults ∪ coreDefaults))).
Proof.
  intros Hs. unfold Defaults.run.
  destruct (strict_eq_str _ _) eqn:E.
  { apply strict_eq_str_spec in E. done. }
  unfold assign, spread. simpl.
  rewrite (right_id_L ∅ (∪) coreDefaults).
  apply map_eq. intros k.
  destruct (decide (k = "definitionMap")) as [->|Hd].
  { by rewrite lookup_union, lookup_singleton_eq, lookup_insert_eq,
       union_Some_l. }
  rewrite lookup_union, lookup_singleton_ne, (left_id_L None _) by done.
  rewrite lookup_insert_ne by done.
  destruct (decide (k = "lint")) as [->|Hl].
  { by rewrite lookup_union, !lookup_insert_eq, union_Some_l. }
  rewrite lookup_union, !lookup_insert_ne, !lookup_union by done.
  destruct (conf !! k), (netageDefaults !! k), (coreDefaults !! k); done.
Qed.

Lemma run_lint_false (conf : object) :
  get conf "lint" = VBool false → run_lint conf = VBool false.
Proof. intros H. unfold Defaults.run_lint. by rewrite H. Qed.

Lemma run_lint_union (conf : object) :
  get conf "lint" ≠ VBool false → run_lint conf = VObj (lint_union conf).
Proof.
  intros H. unfold Defaults.run_lint, Defaults.lint_union, spread.
  destruct (strict_eq_false _) eqn:E.
  { by apply strict_eq_false_spec in E. }
  by rewrite (right_id_L ∅ (∪)).
Qed.

(** C10. When [conf.specStatus] is the string ["unofficial"], [run(conf)]
    returns at once and [conf] is left as it was: no core default, no
    profile default and no lint merge is applied. *)
Theorem run_unofficial_unchanged (conf : object) :
  get conf "specStatus" = VStr "unofficial" → run conf = conf.
Proof.
  intros H. unfold Defaults.run. rewrite H. reflexivity.
Qed.

(** C4, amended. When [conf.lint] is [false] the effective lint is [false]
    whatever the nested keys of the defaults; when it is not, and
    [conf.specStatus] is not ["unofficial"], the effective lint is the
    nested union of the lint of the core defaults, of the profile defaults
    and of [conf.lint], a later one taking precedence on each key. *)
Theorem run_lint_nested_union (conf : object) :
  (get conf "lint" = VBool false → get (run conf) "lint" = VBool false) ∧
  (get conf "specStatus" ≠ VStr "unofficial" →
   get conf "lint" ≠ VBool false →
   get (run conf) "lint" = VObj (lint_union conf)).
Proof.
  split.
  - intros Hl. unfold Defaults.run.
    destruct (strict_eq_str _ _) eqn:E; [done|].
    assert (Hs : get conf "specStatus" ≠ VStr "unofficial").
    { intros Hs. apply strict_eq_str_spec in Hs. congruence. }
    pose proof (run_official conf Hs) as R. unfold Defaults.run in R.
    rewrite E in R. rewrite R.
    apply get_lookup.
    by rewrite lookup_insert_ne, lookup_insert_eq, run_lint_false.
  - intros Hs Hl. rewrite (run_official conf Hs).
    apply get_lookup.
    by rewrite lookup_insert_ne, lookup_insert_eq, run_lint_union.
Qed.

(** C5, amended. When [conf.specStatus] is not ["unofficial"], after
    [run(conf)] every key other than [lint] and [definitionMap] has the
    user's value if the user set it, else the profile default if there is
    one, else the core default if there is one (so that every key of the
    defaults has a value and every other user key passes through);
    [lint] has the merged value and [definitionMap] the engine's
    definition map.  [run] is a total function: it always returns. *)
Theorem run_merges_defaults (conf : object) :
  get conf "specStatus" ≠ VStr "unofficial" →
  (∀ k v, k ≠ "lint" → k ≠ "definitionMap" →
          conf !! k = Some v → run conf !! k = Some v) ∧
  (∀ k v, k ≠ "lint" → k ≠ "definitionMap" →
          conf !! k = None → netageDefaults !! k = Some v →
          run conf !! k = Some v) ∧
  (∀ k, k ≠ "lint" → k ≠ "definitionMap" →
        conf !! k = None → netageDefaults !! k = None →
        run conf !! k = coreDefaults !! k) ∧
  run conf !! "lint" = Some (run_lint conf) ∧
  run conf !! "definitionMap" = Some definitionMap.
Proof.
  intros Hs. rewrite (run_official conf Hs).
  repeat split.
  - intros k v Hl Hd Hk.
    rewrite !lookup_insert_ne by done.
    by rewrite lookup_union, Hk, union_Some_l.
  - intros k v Hl Hd Hk Hn.
    rewrite !lookup_insert_ne by done.
    by rewrite !lookup_union, Hk, Hn, (left_id_L None _), union_Some_l.
  - intros k Hl Hd Hk Hn.
    rewrite !lookup_insert_ne by done.
    by rewrite !lookup_union, Hk, Hn, !(left_id_L None _).
  - by rewrite lookup_insert_ne, lookup_insert_eq.
  - by rewrite lookup_insert_eq.
Qed.

End Run.

(** *** On concrete configurations *)

Section Examples.
#[local] Existing Instance sample_unicode.

Lemma run_unofficial_unchanged_witness :
  get conf_unofficial "specStatus" = VStr "unofficial" ∧
  run core_sample (VObj ∅) conf_unofficial = conf_unofficial.
Proof.
  split; [reflexivity|].
  apply (run_unofficial_unchanged core_sample (VObj ∅) conf_unofficial).
  reflexivity.
Defined.

(** C4 as stated fails: the lint of [conf_unofficial] is not [false], yet
    after [run] it is the user's mapping alone, not the union with the
    lint of the defaults (the profile's [privsec-section] is missing). *)
Lemma run_lint_not_merged_when_unofficial :
  get conf_unofficial "lint" ≠ VBool false ∧
  get (run core_sample (VObj ∅) conf_unofficial) "lint"
    ≠ VObj (lint_union core_sample conf_unofficial) ∧
  lint_union core_sample conf_unofficial !! "privsec-section" = Some (VBool true) ∧
  own_props (get (run core_sample (VObj ∅) conf_unofficial) "lint")
    !! "privsec-section" = None.
Proof.
  split; [discriminate|].
  split; [|split; reflexivity].
  intros H.
  assert (E : own_props (get (run core_sample (VObj ∅) conf_unofficial) "lint")
                !! "privsec-section"
              = own_props (VObj (lint_union core_sample conf_unofficial))
                !! "privsec-section") by (by rewrite H).
  vm_compute in E. discriminate E.
Qed.

Lemma run_lint_nested_union_witness :
  get conf_lint "specStatus" ≠ VStr "unofficial" ∧
  get conf_lint "lint" ≠ VBool false ∧
  get (run core_sample (VObj ∅) conf_lint) "lint"
    = VObj (lint_union core_sample conf_lint) ∧
  lint_union core_sample conf_lint !! "no-http-props" = Some (VBool false) ∧
  lint_union core_sample conf_lint !! "privsec-section" = Some (VBool true) ∧
  lint_union core_sample conf_lint !! "check-punctuation" = Some (VBool false).
Proof.
  split; [discriminate|]. split; [discriminate|]. split.
  - apply (run_lint_nested_union core_sample (VObj ∅) conf_lint); discriminate.
  - repeat split; reflexivity.
Defined.

(** C5 as stated fails.  With [conf_unofficial] the recognized key
    [license] has no value after [run]; with [conf_lint] the key [lint],
    which the user supplied, does not keep the user's value. *)
Lemma run_keys_not_all_kept :
  "license" ∈ recognized_keys ∧
  run core_sample (VObj ∅) conf_unofficial !! "license" = None ∧
  conf_lint !! "lint" = Some (VObj {[ "no-http-props" := VBool false ]}) ∧
  run core_sample (VObj ∅) conf_lint !! "lint"
    ≠ Some (VObj {[ "no-http-props" := VBool false ]}).
Proof.
  split; [unfold recognized_keys; set_solver|].
  split; [reflexivity|]. split; [reflexivity|].
  intros H.
  assert (E : own_props (get (run core_sample (VObj ∅) conf_lint) "lint")
                !! "privsec-section"
              = own_props (VObj {[ "no-http-props" := VBool false ]})
                !! "privsec-section").
  { unfold get. by rewrite H. }
  vm_compute in E. discriminate E.
Qed.

Lemma run_merges_defaults_witness :
  get conf_lint "specStatus" ≠ VStr "unofficial" ∧
  run core_sample (VObj ∅) conf_lint !! "editors" = Some (VStr "someone") ∧
  run core_sample (VObj ∅) conf_lint !! "license" = Some (VStr "w3c-software-doc") ∧
  run core_sample (VObj ∅) conf_lint !! "highlightVars" = Some (VBool true) ∧
  run core_sample (VObj ∅) conf_lint !! "definitionMap" = Some (VObj ∅).
Proof.
  assert (Hs : get conf_lint "specStatus" ≠ VStr "unofficial") by discriminate.
  destruct (run_merges_defaults core_sample (VObj ∅) conf_lint Hs)
    as (Huser & Hprofile & Hcore & _ & Hdm).
  split; [exact Hs|]. split; [|split; [|split]].
  - apply Huser; [discriminate | discriminate | reflexivity].
  - apply Hprofile; [discriminate | discriminate | reflexivity | reflexivity].
  - rewrite Hcore; [reflexivity | discriminate | discriminate
                   | reflexivity | reflexivity].
  - exact Hdm.
Defined.

End Examples.

End DefaultsSpec.

(** ** The style plugin *)

Module StyleSpec.
Import Js Dom DomFacts Style Samples.

Section Host.
Context {unicode : Unicode} {engine : SelectorEngine}.

(** *** The hub leaves the configuration and the head alone *)

Lemma call_handler_frame h d w :
  let w' := (call_handler h d w).1 in
  conf w' = conf w ∧ head w' = head w ∧ published w' = published w ∧
  subscriptions w' = subscriptions w.
Proof.
  destruct h, d; simpl; unfold attachFixupScript; simpl;
    try destruct (negb _); try destruct (styleMover _ _); simpl; done.
Qed.

Lemma deliver_frame subs d w :
  let w' := (deliver subs d w).1 in
  conf w' = conf w ∧ head w' = head w ∧ published w' = published w ∧
  subscriptions w' = subscriptions w.
Proof.
  revert d w. induction subs as [|s r IH]; intros d w; simpl; [done|].
  pose proof (call_handler_frame (callback s) d w) as F.
  destruct (call_handler (callback s) d w) as [w1 d1]. simpl in F.
  destruct F as (F1 & F2 & F3 & F4).
  destruct (IH d1 w1) as (I1 & I2 & I3 & I4).
  cbv zeta. rewrite I1, I2, I3, I4. done.
Qed.

Lemma pub_frame t d w :
  let w' := (pub t d w).1 in
  conf w' = conf w ∧ head w' = head w ∧
  published w' = published w ++ [(t, d)] ∧
  subscriptions w' =
    filter (λ s, ¬ (topic s = t ∧ once s = true)) (subscriptions w).
Proof.
  unfold pub.
  match goal with |- context [deliver ?a ?b ?c] =>
    pose proof (deliver_frame a b c) as F end.
  cbv zeta in *. destruct F as (F1 & F2 & F3 & F4).
  rewrite F1, F2, F3, F4. done.
Qed.

(** An event nobody subscribed to changes nothing but the log of events. *)
Lemma pub_no_subscriber t d w :
  (∀ s, s ∈ subscriptions w → topic s ≠ t) →
  (pub t d w).2 = d.
Proof.
  intros H. unfold pub.
  replace (filter (λ s, topic s = t) (subscriptions w)) with (@nil subscription);
    [reflexivity|].
  symmetry. induction (subscriptions w) as [|s l IH]; [reflexivity|].
  rewrite filter_cons_False.
  - apply IH. intros s' Hs'. apply H. by right.
  - apply H. by left.
Qed.

Lemma truthy_str s : truthy (VStr s) = false → s = "".
Proof. simpl. destruct (String.eqb_spec s ""); done. Qed.

(** *** The two branches of [run], src/netage/style.js *)

Lemma select_style_spec s :
  select_style s =
    if decide (s ∈ recognized_codes) then styles +:+ s +:+ ".css"
    else styles +:+ "NETAGE-BASIC.css".
Proof.
  unfold select_style.
  destruct (String.eqb_spec s "NETAGE-CV") as [->|H1]; [reflexivity|].
  destruct (String.eqb_spec s "NETAGE-LD") as [->|H2]; [reflexivity|].
  destruct (String.eqb_spec s "NETAGE-FINAL") as [->|H3]; [reflexivity|].
  destruct (String.eqb_spec s "NETAGE-BASIC") as [->|H4]; [reflexivity|].
  rewrite decide_False; [reflexivity|].
  unfold recognized_codes. rewrite !elem_of_cons, elem_of_nil. tauto.
Qed.

Lemma run_with_status w s :
  get (conf w) "specStatus" = VStr s →
  truthy (VStr s) = true →
  run w =
    (linkCSS (select_style (toUpperCase s))
       (let w1 := with_console (console w ++ [select_style (toUpperCase s)]) w in
        if negb (truthy (get (conf w) "noToc"))
        then sub "end-all" (AttachFixupScript "2016") true w1 else w1),
     Normal).
Proof.
  intros Hs T. unfold run. rewrite Hs, T. cbn [negb]. rewrite Hs. reflexivity.
Qed.

Lemma run_without_status w :
  truthy (get (conf w) "specStatus") = false →
  run w =
    (let w0 := (pub "warn" (Message warn)
                 (with_conf (<["specStatus" := VStr "NETAGE-BASIC"]> (conf w)) w)).1 in
     linkCSS (styles +:+ "NETAGE-BASIC.css")
       (let w1 := with_console (console w0 ++ [styles +:+ "NETAGE-BASIC.css"]) w0 in
        if negb (truthy (get (conf w0) "noToc"))
        then sub "end-all" (AttachFixupScript "2016") true w1 else w1),
     Normal).
Proof.
  intros T. unfold run. rewrite T. cbn [negb].
  match goal with |- context [pub ?a ?b ?c] =>
    pose proof (pub_frame a b c) as F; set (W := (pub a b c).1) in * end.
  cbv zeta in F. destruct F as (Fc & _).
  assert (E : get (conf W) "specStatus" = VStr "NETAGE-BASIC").
  { unfold get. rewrite Fc. simpl. by rewrite lookup_insert_eq. }
  rewrite E. reflexivity.
Qed.

Lemma stylesheet_for_falsy prefix v :
  truthy v = false → stylesheet_for prefix v = prefix +:+ "NETAGE-BASIC.css".
Proof.
  intros T. destruct v; try reflexivity.
  apply truthy_str in T. subst. reflexivity.
Qed.

Lemma run_links w :
  (∃ s, get (conf w) "specStatus" = VStr s)
  ∨ truthy (get (conf w) "specStatus") = false →
  head (run w).1 =
    head w ++ [stylesheet_link (stylesheet_for styles (get (conf w) "specStatus"))].
Proof.
  intros H.
  destruct (truthy (get (conf w) "specStatus")) eqn:T.
  - destruct H as [[s Hs]|]; [|done]. rewrite Hs in T.
    rewrite (run_with_status w s Hs T), Hs. cbn [fst stylesheet_for].
    rewrite select_style_spec.
    destruct (negb _); reflexivity.
  - rewrite (run_without_status w T). cbn [fst].
    match goal with |- context [pub ?a ?b ?c] =>
      pose proof (pub_frame a b c) as F; set (W := (pub a b c).1) in * end.
    cbv zeta in F. destruct F as (Fc & Fh & Fp & Fs).
    rewrite (stylesheet_for_falsy _ _ T).
    destruct (negb _); cbn; rewrite Fh; reflexivity.
Qed.

(** *** The two branches of [run], src/unnamed/part_000 *)

Lemma netage_select_style_spec s :
  NetageStyle.select_style s =
    if decide (s ∈ recognized_codes) then NetageStyle.styles +:+ s +:+ ".css"
    else NetageStyle.styles +:+ "NETAGE-BASIC.css".
Proof.
  unfold NetageStyle.select_style.
  destruct (String.eqb_spec s "NETAGE-CV") as [->|H1]; [reflexivity|].
  destruct (String.eqb_spec s "NETAGE-LD") as [->|H2]; [reflexivity|].
  destruct (String.eqb_spec s "NETAGE-FINAL") as [->|H3]; [reflexivity|].
  destruct (String.eqb_spec s "NETAGE-BASIC") as [->|H4]; [reflexivity|].
  rewrite decide_False; [reflexivity|].
  unfold recognized_codes. rewrite !elem_of_cons, elem_of_nil. tauto.
Qed.

Lemma netage_run_with_status w s :
  get (conf w) "specStatus" = VStr s →
  truthy (VStr s) = true →
  NetageStyle.run w =
    (linkCSS (NetageStyle.select_style (toUpperCase s)) w,
     Throw (ReferenceError "moveStyle is not defined")).
Proof.
  intros Hs T. unfold NetageStyle.run. rewrite Hs, T. cbn [negb].
  rewrite Hs. reflexivity.
Qed.

Lemma netage_run_without_status w :
  truthy (get (conf w) "specStatus") = false →
  NetageStyle.run w =
    (linkCSS (NetageStyle.styles +:+ "NETAGE-BASIC.css")
       (pub "warn" (Message NetageStyle.warn)
          (with_conf (<["specStatus" := VStr "base"]> (conf w)) w)).1,
     Throw (ReferenceError "moveStyle is not defined")).
Proof.
  intros T. unfold NetageStyle.run. rewrite T. cbn [negb].
  match goal with |- context [pub ?a ?b ?c] =>
    pose proof (pub_frame a b c) as F; set (W := (pub a b c).1) in * end.
  cbv zeta in F. destruct F as (Fc & _).
  assert (E : get (conf W) "specStatus" = VStr "base").
  { unfold get. rewrite Fc. simpl. by rewrite lookup_insert_eq. }
  rewrite E. reflexivity.
Qed.

Lemma netage_run_links w :
  (∃ s, get (conf w) "specStatus" = VStr s)
  ∨ truthy (get (conf w) "specStatus") = false →
  head (NetageStyle.run w).1 =
    head w ++ [stylesheet_link
                 (stylesheet_for NetageStyle.styles (get (conf w) "specStatus"))].
Proof.
  intros H.
  destruct (truthy (get (conf w) "specStatus")) eqn:T.
  - destruct H as [[s Hs]|]; [|done]. rewrite Hs in T.
    rewrite (netage_run_with_status w s Hs T), Hs. cbn [fst stylesheet_for].
    rewrite netage_select_style_spec. reflexivity.
  - rewrite (netage_run_without_status w T). cbn [fst].
    match goal with |- context [pub ?a ?b ?c] =>
      pose proof (pub_frame a b c) as F; set (W := (pub a b c).1) in * end.
    cbv zeta in F. destruct F as (Fc & Fh & Fp & Fs).
    rewrite (stylesheet_for_falsy _ _ T).
    cbn. rewrite Fh. reflexivity.
Qed.

(** [run] of src/netage/style.js returns when the status is a string or is
    absent. *)
Lemma run_returns_normally w :
  (∃ s, get (conf w) "specStatus" = VStr s)
  ∨ truthy (get (conf w) "specStatus") = false →
  (run w).2 = Normal.
Proof.
  intros H.
  destruct (truthy (get (conf w) "specStatus")) eqn:T.
  - destruct H as [[s Hs]|]; [|done]. rewrite Hs in T.
    by rewrite (run_with_status w s Hs T).
  - by rewrite (run_without_status w T).
Qed.

(** What [run] of src/netage/style.js leaves registered on the hub: what
    was registered, and at most its own ["end-all"] handler. *)
Lemma run_subscriptions w s :
  s ∈ subscriptions (run w).1 →
  s ∈ subscriptions w ∨ s = Subscription "end-all" (AttachFixupScript "2016") true.
Proof.
  unfold run.
  set (w0 := if negb (truthy (get (conf w) "specStatus")) then _ else w).
  assert (H0 : ∀ x, x ∈ subscriptions w0 → x ∈ subscriptions w).
  { subst w0. destruct (negb _); [|done].
    match goal with |- context [pub ?a ?b ?c] =>
      pose proof (pub_frame a b c) as F; set (W := (pub a b c).1) in * end.
    cbv zeta in F. destruct F as (_ & _ & _ & Fs). rewrite Fs. cbn.
    intros x Hx. by apply list_elem_of_filter in Hx as [_ ?]. }
  destruct (get (conf w0) "specStatus"); cbn [fst]; try (intros; left; by apply H0).
  cbn. destruct (negb (truthy (get (conf w0) "noToc"))); cbn.
  - intros Hs. apply elem_of_app in Hs as [Hs|Hs].
    + left. by apply H0.
    + right. by apply list_elem_of_singleton in Hs.
  - intros; left; by apply H0.
Qed.

(** C1, amended. In both revisions of the plugin, when [conf.specStatus]
    is a string or is absent (falsy), [run(conf)] links exactly one
    stylesheet, appended to the head: the literal URL mapped to the code
    when the status, put in upper case by [toUpperCase], is one of
    [NETAGE-CV], [NETAGE-LD], [NETAGE-FINAL], [NETAGE-BASIC], and the
    [NETAGE-BASIC] URL for any other string and for an absent status.  A
    status of ASCII characters stands for a code exactly when it equals
    the code once its letters [a]..[z] are made capitals. *)
Theorem run_selects_stylesheet (w : world) :
  (∃ s, get (conf w) "specStatus" = VStr s)
  ∨ truthy (get (conf w) "specStatus") = false →
  head (run w).1 =
    head w ++ [stylesheet_link (stylesheet_for styles (get (conf w) "specStatus"))]
  ∧ head (NetageStyle.run w).1 =
    head w ++ [stylesheet_link
                 (stylesheet_for NetageStyle.styles (get (conf w) "specStatus"))]
  ∧ (∀ s, get (conf w) "specStatus" = VStr s → is_ascii s = true →
       (∀ c, c ∈ recognized_codes → upper_ascii_string s = c →
          head (run w).1 = head w ++ [stylesheet_link (styles +:+ c +:+ ".css")] ∧
          head (NetageStyle.run w).1
            = head w ++ [stylesheet_link (NetageStyle.styles +:+ c +:+ ".css")]) ∧
       (upper_ascii_string s ∉ recognized_codes →
          head (run w).1
            = head w ++ [stylesheet_link (styles +:+ "NETAGE-BASIC.css")] ∧
          head (NetageStyle.run w).1
            = head w ++ [stylesheet_link
                           (NetageStyle.styles +:+ "NETAGE-BASIC.css")])).
Proof.
  intros H.
  pose proof (run_links w H) as H1. pose proof (netage_run_links w H) as H2.
  split; [exact H1|]. split; [exact H2|].
  intros s Hs Ha. rewrite Hs in H1, H2. cbn [stylesheet_for] in H1, H2.
  unfold toUpperCase in H1, H2. rewrite Ha in H1, H2. split.
  - intros c Hc Hu. rewrite Hu in H1, H2.
    rewrite decide_True in H1, H2 by done. done.
  - intros Hn. rewrite decide_False in H1, H2 by done. done.
Qed.

(** C3. When [conf.specStatus] is absent (falsy), [run(conf)] sets it to
    the fallback code its warning names, and publishes exactly that one
    warning on the hub.  The run of src/netage/style.js then returns; the
    run of src/unnamed/part_000 goes on to throw a [ReferenceError], its
    last statement naming an undeclared [moveStyle]. *)
Theorem run_missing_status (w : world) :
  truthy (get (conf w) "specStatus") = false →
  (get (conf (run w).1) "specStatus" = VStr "NETAGE-BASIC" ∧
   published (run w).1 = published w ++ [("warn", Message warn)] ∧
   (run w).2 = Normal) ∧
  (get (conf (NetageStyle.run w).1) "specStatus" = VStr "base" ∧
   published (NetageStyle.run w).1
     = published w ++ [("warn", Message NetageStyle.warn)] ∧
   (NetageStyle.run w).2 = Throw (ReferenceError "moveStyle is not defined")).
Proof.
  intros T. split.
  - rewrite (run_without_status w T). cbn [fst snd].
    match goal with |- context [pub ?a ?b ?c] =>
      pose proof (pub_frame a b c) as F; set (W := (pub a b c).1) in * end.
    cbv zeta in F. destruct F as (Fc & Fh & Fp & Fs).
    split; [|split; [|reflexivity]].
    + destruct (negb _); cbn; unfold get; rewrite Fc; cbn;
        by rewrite lookup_insert_eq.
    + destruct (negb _); cbn; by rewrite Fp.
  - rewrite (netage_run_without_status w T). cbn [fst snd].
    match goal with |- context [pub ?a ?b ?c] =>
      pose proof (pub_frame a b c) as F; set (W := (pub a b c).1) in * end.
    cbv zeta in F. destruct F as (Fc & Fh & Fp & Fs).
    split; [|split; [|reflexivity]].
    + cbn. unfold get. rewrite Fc. cbn. by rewrite lookup_insert_eq.
    + cbn. by rewrite Fp.
Qed.

(** C7 fails on src/unnamed/part_000: whatever the configuration and the
    document, [run(conf)] ends by throwing. *)
Theorem netage_run_always_throws (w : world) :
  ∃ e, (NetageStyle.run w).2 = Throw e.
Proof.
  destruct (truthy (get (conf w) "specStatus")) eqn:T.
  - unfold NetageStyle.run. rewrite T. cbn [negb].
    destruct (get (conf w) "specStatus"); eexists; reflexivity.
  - rewrite (netage_run_without_status w T). eexists; reflexivity.
Qed.

(** What the handler made by [styleMover] does to an exported head, were
    it registered: the link found becomes the last child; when there is
    none, the text ["null"] is appended. *)
Lemma styleMover_moves_link_last url hd p :
  plain url = true →
  querySelector (link_with_href url) (head_element hd) = Some p →
  ∃ n l, lookup_path p (head_element hd) = Some n ∧
         matches (link_with_href url) n = true ∧
         styleMover url hd = inr l ∧ last l = Some n.
Proof.
  intros Hp H. unfold styleMover, find_link. rewrite Hp, H.
  apply querySelector_Some in H as (_ & n & Hn & Hm).
  rewrite Hn. exists n. eexists. by rewrite last_snoc.
Qed.

Lemma styleMover_without_link url hd :
  plain url = true →
  querySelector (link_with_href url) (head_element hd) = None →
  styleMover url hd = inr (hd ++ [Text "null"]).
Proof. intros Hp H. unfold styleMover, find_link. by rewrite Hp, H. Qed.

(** C2 fails on src/netage/style.js: [run] registers no handler for the
    export event, so on a page where nobody else did, the exported head is
    the head as the plugins left it, the stylesheet link followed by
    whatever was appended after [run]. *)
Theorem export_keeps_head_order (w : world) (extra : list node) :
  (∀ s, s ∈ subscriptions w → topic s ≠ "beforesave") →
  (∃ s, get (conf w) "specStatus" = VStr s)
  ∨ truthy (get (conf w) "specStatus") = false →
  export_head (with_head (head (run w).1 ++ extra) (run w).1) =
    head w
    ++ [stylesheet_link (stylesheet_for styles (get (conf w) "specStatus"))]
    ++ extra.
Proof.
  intros Hsubs Hst. unfold export_head.
  rewrite pub_no_subscriber.
  - cbn. rewrite (run_links w Hst). by rewrite <- app_assoc.
  - cbn. intros s Hs. apply run_subscriptions in Hs as [Hs| ->].
    + by apply Hsubs.
    + discriminate.
Qed.

(** *** The viewport meta element inserted when the module is loaded *)

Lemma length_viewport_metas_app l1 l2 :
  length (viewport_metas (l1 ++ l2))
    = length (viewport_metas l1) + length (viewport_metas l2).
Proof.
  unfold viewport_metas. rewrite !length_querySelectorAll. cbn.
  by rewrite !fmap_app, sum_list_with_app.
Qed.

Lemma length_viewport_metas_cons n l :
  length (viewport_metas (n :: l))
    = length (matching (matches meta_viewport) n) + length (viewport_metas l).
Proof.
  unfold viewport_metas. rewrite !length_querySelectorAll. reflexivity.
Qed.

Lemma no_viewport_meta l :
  querySelector meta_viewport (head_element l) = None →
  length (viewport_metas l) = 0.
Proof.
  unfold querySelector, viewport_metas. intros H.
  apply head_None in H. by rewrite H.
Qed.

Lemma viewport_metas_first (meta : node) (l : list node) :
  matches meta_viewport meta = true →
  length (viewport_metas (meta :: l)) = 1 →
  viewport_metas (meta :: l) = [[0]].
Proof.
  intros Hm Hlen.
  assert (Hin : [0] ∈ viewport_metas (meta :: l)).
  { apply elem_of_querySelectorAll. split; [done|]. exists meta. done. }
  destruct (viewport_metas (meta :: l)) as [|x [|y r]]; try done.
  by apply list_elem_of_singleton in Hin as ->.
Qed.

(** C9. In both revisions of the plugin: when the head holds no [meta]
    element named [viewport] before the module is loaded, after the load
    it holds exactly one and that one is the first child of the head; when
    it holds one already, the load adds none (the resource hints and the
    base stylesheet only are put in front of the head). *)
Theorem load_viewport_meta (toKeyValuePairs : list (string * string) → string)
    (w : world) :
  (querySelector meta_viewport (head_element (head w)) = None →
   (viewport_metas (head (load toKeyValuePairs w)) = [[0]] ∧
    head (load toKeyValuePairs w) !! 0 = Some (createMetaViewport toKeyValuePairs)) ∧
   (viewport_metas (head (NetageStyle.load toKeyValuePairs w)) = [[0]] ∧
    head (NetageStyle.load toKeyValuePairs w) !! 0
      = Some (createMetaViewport toKeyValuePairs))) ∧
  (is_Some (querySelector meta_viewport (head_element (head w))) →
   (length (viewport_metas (head (load toKeyValuePairs w)))
      = length (viewport_metas (head w)) ∧
    head (load toKeyValuePairs w)
      = createResourceHints ++ [createBaseStyle] ++ head w) ∧
   (length (viewport_metas (head (NetageStyle.load toKeyValuePairs w)))
      = length (viewport_metas (head w)) ∧
    head (NetageStyle.load toKeyValuePairs w)
      = NetageStyle.createResourceHints ++ [NetageStyle.createBaseStyle] ++ head w)).
Proof.
  split.
  - intros Hnone. unfold load, NetageStyle.load. rewrite Hnone. cbn [head with_head].
    split; (split; [|reflexivity]).
    + rewrite <- app_comm_cons. apply viewport_metas_first; [reflexivity|].
      rewrite length_viewport_metas_cons, length_viewport_metas_app.
      rewrite (no_viewport_meta _ Hnone). reflexivity.
    + rewrite <- app_comm_cons. apply viewport_metas_first; [reflexivity|].
      rewrite length_viewport_metas_cons, length_viewport_metas_app.
      rewrite (no_viewport_meta _ Hnone). reflexivity.
  - intros [p Hsome]. unfold load, NetageStyle.load. rewrite Hsome.
    cbn [head with_head].
    split; (split; [|by rewrite <- app_assoc]).
    + rewrite length_viewport_metas_app. reflexivity.
    + rewrite length_viewport_metas_app. reflexivity.
Qed.

End Host.

(** *** On concrete pages *)

Section Examples.
#[local] Existing Instance sample_unicode.
#[local] Existing Instance sample_engine.

Lemma run_selects_stylesheet_witness :
  get (conf (page {[ "specStatus" := VStr "netage-cv" ]})) "specStatus"
    = VStr "netage-cv"
  ∧ head (run (page {[ "specStatus" := VStr "netage-cv" ]})).1 =
    [stylesheet_link "https://netage.github.io/respec_resources/styles/NETAGE-CV.css"]
  ∧ head (NetageStyle.run (page {[ "specStatus" := VStr "netage-cv" ]})).1 =
    [stylesheet_link "https://docs.netage.nl/respec_resources/styles/NETAGE-CV.css"]
  ∧ is_ascii status_dotless = false
  ∧ head (run (page {[ "specStatus" := VStr status_dotless ]})).1 =
    [stylesheet_link
       "https://netage.github.io/respec_resources/styles/NETAGE-FINAL.css"].
Proof.
  assert (Hs : get (conf (page {[ "specStatus" := VStr "netage-cv" ]})) "specStatus"
               = VStr "netage-cv") by reflexivity.
  assert (Hd : get (conf (page {[ "specStatus" := VStr status_dotless ]}))
                 "specStatus" = VStr status_dotless) by reflexivity.
  destruct (run_selects_stylesheet (page {[ "specStatus" := VStr "netage-cv" ]})
              (or_introl (ex_intro _ "netage-cv" Hs))) as (H1 & H2 & _).
  destruct (run_selects_stylesheet (page {[ "specStatus" := VStr status_dotless ]})
              (or_introl (ex_intro _ status_dotless Hd))) as (H3 & _).
  split; [exact Hs|]. split; [exact H1|]. split; [exact H2|].
  split; [reflexivity|exact H3].
Defined.

(** C1 as stated fails for a status that is no string: with the number 42
    [run] throws a [TypeError] at [toUpperCase] and links no stylesheet. *)
Lemma run_number_status_throws :
  let w := page {[ "specStatus" := VNum 42 ]} in
  run w = (w, Throw (TypeError "conf.specStatus.toUpperCase is not a function"))
  ∧ NetageStyle.run w
    = (w, Throw (TypeError "conf.specStatus.toUpperCase is not a function"))
  ∧ head (run w).1 = [] ∧ head (NetageStyle.run w).1 = [].
Proof. repeat split. Qed.

Lemma run_missing_status_witness :
  truthy (get (conf (page ∅)) "specStatus") = false ∧
  (get (conf (run (page ∅)).1) "specStatus" = VStr "NETAGE-BASIC" ∧
   published (run (page ∅)).1 = [("warn", Message warn)] ∧
   (run (page ∅)).2 = Normal) ∧
  (get (conf (NetageStyle.run (page ∅)).1) "specStatus" = VStr "base" ∧
   published (NetageStyle.run (page ∅)).1 = [("warn", Message NetageStyle.warn)] ∧
   (NetageStyle.run (page ∅)).2 = Throw (ReferenceError "moveStyle is not defined")).
Proof.
  split; [reflexivity|].
  apply (run_missing_status (page ∅)). reflexivity.
Defined.

(** After [run], a script appended to the head and the export: the
    stylesheet link is not the last child of the exported head. *)
Lemma export_keeps_head_order_witness :
  let w := page {[ "specStatus" := VStr "NETAGE-CV" ]} in
  export_head (with_head (head (run w).1 ++ [late_script]) (run w).1) =
    [stylesheet_link "https://netage.github.io/respec_resources/styles/NETAGE-CV.css";
     late_script]
  ∧ last (export_head (with_head (head (run w).1 ++ [late_script]) (run w).1))
    = Some late_script.
Proof.
  intros w.
  assert (E : export_head (with_head (head (run w).1 ++ [late_script]) (run w).1) =
    [stylesheet_link "https://netage.github.io/respec_resources/styles/NETAGE-CV.css";
     late_script]).
  { apply (export_keeps_head_order w [late_script]).
    - intros s Hs. subst w. cbn in Hs. by apply elem_of_nil in Hs.
    - left. exists "NETAGE-CV". reflexivity. }
  split; [exact E | rewrite E; reflexivity].
Defined.

Lemma load_viewport_meta_witness :
  let w := page ∅ in
  querySelector meta_viewport (head_element (head w)) = None ∧
  viewport_metas (head (load key_value_pairs w)) = [[0]] ∧
  head (load key_value_pairs w) !! 0 =
    Some (Element "meta"
            [("name", "viewport");
             ("content", "width=device-width, initial-scale=1, shrink-to-fit=no")]
            [] []) ∧
  length (viewport_metas (head (load key_value_pairs (load key_value_pairs w)))) = 1.
Proof.
  intros w.
  destruct (load_viewport_meta key_value_pairs w) as [Hnone _].
  destruct (load_viewport_meta key_value_pairs (load key_value_pairs w))
    as [_ Hsome].
  assert (N : querySelector meta_viewport (head_element (head w)) = None)
    by reflexivity.
  destruct (Hnone N) as [[H1 H2] _].
  split; [exact N|]. split; [exact H1|]. split; [exact H2|].
  destruct Hsome as [[H3 _] _].
  - eexists. reflexivity.
  - rewrite H3, H1. reflexivity.
Defined.

End Examples.

End StyleSpec.

(** ** netage/informative *)

Module InformativeSpec.
Import Dom DomFacts Informative Samples.


Lemma matches_label sel m m' : label m' = label m → matches sel m' = matches sel m.
Proof.
  destruct m, m'; cbn; intros [=]; subst; reflexivity.
Qed.

(** Nothing in the annotation paragraph is a heading. *)
Lemma annotation_no_heading r m :
  lookup_path r annotation = Some m → matches heading_levels m = false.
Proof.
  destruct r as [|[|i] [|[|j] [|k r]]]; cbn; intros [= <-]; reflexivity.
Qed.

Lemma is_annotation_eq n : is_annotation n = true → n = annotation.
Proof.
  destruct n as [t [|] [|] [|[t' [|] [|] [|[|d] [|]]|] [|]]|]; cbn; try done.
  rewrite !andb_true_iff, !String.eqb_eq. by intros [[-> ->] ->].
Qed.

(** A tree with a heading somewhere below its root is no annotation. *)
Lemma heading_at_not_annotation doc h :
  heading_at doc h → is_annotation doc = false.
Proof.
  intros (Hne & m & Hm & Hh). destruct (is_annotation doc) eqn:E; [|done].
  apply is_annotation_eq in E as ->.
  apply annotation_no_heading in Hm. congruence.
Qed.

Lemma count_annotations_Element t a c ch :
  count_annotations (Element t a c ch)
  = (if is_annotation (Element t a c ch) then 1 else 0)
    + sum_list (count_annotations <$> ch).
Proof. reflexivity. Qed.

Lemma sum_list_insert_middle (g : node → nat) n ch x :
  sum_list (g <$> (take n ch ++ x :: drop n ch)) = sum_list (g <$> ch) + g x.
Proof.
  rewrite <- (take_drop n ch) at 3.
  rewrite !fmap_app, fmap_cons, !sum_list_with_app. cbn. lia.
Qed.

Lemma sum_list_alter (g : node → nat) f i ch c :
  ch !! i = Some c →
  sum_list (g <$> alter f i ch) + g c = sum_list (g <$> ch) + g (f c).
Proof.
  revert i. induction ch as [|x ch IH]; intros [|i] H; try done.
  - cbn in H. injection H as ->. cbn. lia.
  - cbn in H. cbn. specialize (IH i H). cbn in IH. lia.
Qed.

Lemma heading_at_after doc h new :
  heading_at doc h → heading_at (after h new doc) h.
Proof.
  intros (Hne & m & Hm & Hh). split; [done|].
  destruct (lookup_after_shift h new h doc m) as (m' & Hm' & _ & He); [eauto|done|].
  rewrite shift_self in Hm'. rewrite (He (or_introl eq_refl)) in Hm'. eauto.
Qed.

(** One annotation more after [heading.after(..)]. *)
Lemma count_annotations_after doc h :
  heading_at doc h →
  count_annotations (after h annotation doc) = S (count_annotations doc).
Proof.
  revert doc. induction h as [|i pr IH]; intros doc H.
  { by destruct H as [? _]. }
  pose proof (heading_at_not_annotation _ _ H) as Hd.
  pose proof (heading_at_not_annotation _ _ (heading_at_after _ _ annotation H)) as Hd'.
  destruct H as (_ & m & Hm & Hh).
  rewrite lookup_path_cons in Hm.
  destruct (children doc !! i) as [c|] eqn:Hc; [|done]. cbn in Hm.
  destruct (children_Some_Element _ _ _ Hc) as (t & a & cl & ch & ->).
  cbn [children] in Hc.
  destruct pr as [|i' pr'].
  - assert (Hi : i < length ch) by (by apply lookup_lt_Some in Hc).
    rewrite after_last in Hd' |- *. cbn [children] in Hd' |- *.
    destruct (decide (i < length ch)); [|lia].
    cbn [set_children] in Hd' |- *.
    rewrite !count_annotations_Element, Hd, Hd'.
    rewrite sum_list_insert_middle. cbn. lia.
  - rewrite after_cons in Hd' |- *. cbn [children set_children] in Hd' |- *.
    rewrite !count_annotations_Element, Hd, Hd'.
    pose proof (sum_list_alter count_annotations (after (i' :: pr') annotation)
                  i ch c Hc) as E.
    rewrite (IH c) in E; [lia|].
    split; [done|]. eauto.
Qed.

Lemma heading_at_shift doc h q new :
  heading_at doc h → heading_at doc q →
  heading_at (after h new doc) (shift h q).
Proof.
  intros (Hne & mh & Hmh & _) (Hq & m & Hm & Hh).
  split; [by apply shift_not_nil|].
  destruct (lookup_after_shift h new q doc m) as (m' & Hm' & Hl & _); [eauto|done|].
  exists m'. split; [done|]. by rewrite (matches_label _ _ _ Hl).
Qed.

(** An annotation that follows a heading still follows it after an
    insertion after another heading, or after the same one. *)
Lemma annotation_next_after doc h q :
  heading_at doc h → q ≠ [] →
  q = h ∨ lookup_path (next_sibling q) doc = Some annotation →
  lookup_path (next_sibling (shift h q)) (after h annotation doc) = Some annotation.
Proof.
  intros Hh Hq Hcase.
  destruct (decide (q = h)) as [->|Hne].
  { rewrite shift_self. apply lookup_after_next; [apply Hh|].
    destruct Hh as (_ & m & -> & _). eauto. }
  destruct Hcase as [?|Hn]; [done|].
  rewrite <- shift_next_sibling by done.
  destruct Hh as (Hhne & mh & Hmh & Hhh).
  destruct (lookup_after_shift h annotation (next_sibling q) doc annotation)
    as (m' & Hm' & _ & He); [eauto|done|].
  rewrite Hm'. f_equal. apply He. right. intros [r ->].
  rewrite lookup_path_app, Hn in Hmh. cbn in Hmh.
  apply annotation_no_heading in Hmh. congruence.
Qed.

Lemma forEach_after_spec n : ∀ k refs doc,
  k + n = length refs →
  (∀ h, h ∈ refs → heading_at doc h) →
  (∀ j h, j < k → refs !! j = Some h →
          lookup_path (next_sibling h) doc = Some annotation) →
  count_annotations (forEach_after k n refs doc).1 = count_annotations doc + n ∧
  length (forEach_after k n refs doc).2 = length refs ∧
  (∀ j h h', refs !! j = Some h → (forEach_after k n refs doc).2 !! j = Some h' →
     (∃ m m', lookup_path h doc = Some m ∧
              lookup_path h' (forEach_after k n refs doc).1 = Some m' ∧
              label m' = label m) ∧
     lookup_path (next_sibling h') (forEach_after k n refs doc).1 = Some annotation).
Proof.
  induction n as [|n IH]; intros k refs doc Hk Hrefs Hdone.
  - cbn. split; [lia|]. split; [done|].
    intros j h h' Hj Hj'. assert (h' = h) as -> by congruence.
    split.
    + destruct (Hrefs h) as (_ & m & Hm & _); [by eapply list_elem_of_lookup_2|].
      eauto.
    + apply (Hdone j); [|done]. apply lookup_lt_Some in Hj. lia.
  - cbn [forEach_after].
    destruct (refs !! k) as [h|] eqn:Hh.
    2:{ apply lookup_ge_None in Hh. lia. }
    assert (Hhead : heading_at doc h) by (by eapply Hrefs, list_elem_of_lookup_2).
    destruct (IH (S k) (shift h <$> refs) (after h annotation doc))
      as (Hc & Hl & Hr).
    + rewrite length_fmap. lia.
    + intros h1 Hh1. apply list_elem_of_fmap in Hh1 as (q & -> & Hq).
      apply heading_at_shift; auto.
    + intros j h1 Hj Hh1.
      apply list_lookup_fmap_Some in Hh1 as (q & -> & Hq).
      apply annotation_next_after; [done| |].
      * eapply Hrefs, list_elem_of_lookup_2, Hq.
      * destruct (decide (j = k)) as [->|Hjk]; [left; congruence|].
        right. apply (Hdone j); [lia|done].
    + rewrite Hc, count_annotations_after by done.
      rewrite Hl, length_fmap. split; [lia|]. split; [done|].
      intros j q h' Hq Hh'.
      destruct (Hr j (shift h q) h') as ((m1 & m' & Hm1 & Hm' & Hlab) & Hann).
      { by rewrite list_lookup_fmap, Hq. }
      { done. }
      split; [|done].
      destruct (Hrefs q) as (_ & m & Hm & _); [by eapply list_elem_of_lookup_2|].
      destruct (lookup_after_shift h annotation q doc m) as (m2 & Hm2 & Hl2 & _).
      { destruct Hhead as (_ & ? & -> & _). eauto. }
      { done. }
      exists m, m'. split; [done|]. split; [done|]. congruence.
Qed.

Lemma omap_filter_Forall2 {A B} (f : A → option B) (l : list A) :
  Forall2 (λ a b, f a = Some b) (filter (λ a, is_Some (f a)) l) (omap f l).
Proof.
  induction l as [|a l IH]; [constructor|].
  destruct (f a) as [b|] eqn:E.
  - rewrite filter_cons_True by (rewrite E; eauto).
    cbn [omap list_omap]. rewrite E. by constructor.
  - rewrite filter_cons_False by (rewrite E; by intros [? ?]).
    cbn [omap list_omap]. by rewrite E.
Qed.

Lemma heading_of_Some doc s h :
  heading_of doc s = Some h →
  ∃ n h0, lookup_path s doc = Some n ∧
          querySelector heading_levels n = Some h0 ∧ h = s ++ h0.
Proof.
  unfold heading_of. intros H.
  destruct (lookup_path s doc) as [n|]; [|done]. cbn in H.
  destruct (querySelector heading_levels n) as [h0|] eqn:Hq; [|done]. cbn in H.
  injection H as <-. exists n, h0. done.
Qed.

Lemma heading_of_heading_at doc s h :
  heading_of doc s = Some h → heading_at doc h.
Proof.
  intros H. apply heading_of_Some in H as (n & h0 & Hn & Hq & ->).
  apply querySelector_Some in Hq as (Hne & m & Hm & Hh).
  split; [by destruct s, h0|].
  exists m. rewrite lookup_path_app, Hn. done.
Qed.

(** A subtree without any heading is left as it is by the loop. *)
Lemma forEach_after_frame n : ∀ k refs doc q m,
  k + n = length refs →
  (∀ h, h ∈ refs → heading_at doc h) →
  lookup_path q doc = Some m →
  no_heading_in m →
  lookup_path (follow k n refs q) (forEach_after k n refs doc).1 = Some m.
Proof.
  induction n as [|n IH]; intros k refs doc q m Hk Hrefs Hq Hm; [done|].
  cbn [forEach_after follow].
  destruct (refs !! k) as [h|] eqn:Hh; [|done].
  assert (Hhead : heading_at doc h) by (by eapply Hrefs, list_elem_of_lookup_2).
  apply IH.
  - rewrite length_fmap. lia.
  - intros h1 Hh1. apply list_elem_of_fmap in Hh1 as (q1 & -> & Hq1).
    apply heading_at_shift; auto.
  - destruct Hhead as (_ & mh & Hmh & Hhh).
    destruct (lookup_after_shift h annotation q doc m) as (m1 & Hm1 & _ & He);
      [eauto|done|].
    rewrite Hm1. f_equal. apply He. right. intros [r ->].
    rewrite lookup_path_app, Hq in Hmh. cbn in Hmh.
    apply Hm in Hmh. congruence.
  - done.
Qed.

Lemma section_is_no_heading n :
  matches section_informative n = true → matches heading_levels n = false.
Proof.
  destruct n as [t a c ch|d]; [|done]. cbn.
  rewrite orb_false_r, andb_true_r.
  destruct (String.eqb_spec t "section") as [->|]; [|done]. done.
Qed.

Lemma section_without_heading n :
  matches section_informative n = true →
  querySelector heading_levels n = None →
  no_heading_in n.
Proof.
  intros Hs Hq r m' Hr.
  destruct r as [|i r].
  - cbn in Hr. injection Hr as <-. by apply section_is_no_heading.
  - destruct (matches heading_levels m') eqn:E; [|done].
    assert (Hin : i :: r ∈ querySelectorAll heading_levels n).
    { apply elem_of_querySelectorAll. split; [done|]. eauto. }
    unfold querySelector in Hq. apply head_None in Hq. rewrite Hq in Hin.
    by apply elem_of_nil in Hin.
Qed.

Lemma located_headings_heading_at doc h :
  h ∈ located_headings doc → heading_at doc h.
Proof.
  intros Hh. unfold located_headings in Hh.
  apply list_elem_of_omap in Hh as (s & _ & Hs).
  by eapply heading_of_heading_at.
Qed.

Lemma length_located_headings doc :
  length (located_headings doc) = length (sections_with_heading doc).
Proof.
  symmetry. eapply Forall2_length, omap_filter_Forall2.
Qed.

(** The references of the array after the loop are the ones [follow] gives. *)
Lemma forEach_after_refs n : ∀ k refs doc,
  (forEach_after k n refs doc).2 = follow k n refs <$> refs.
Proof.
  induction n as [|n IH]; intros k refs doc.
  - cbn. by rewrite list_fmap_id.
  - cbn [forEach_after follow].
    destruct (refs !! k) as [h|] eqn:Hh.
    + rewrite IH, <- list_fmap_compose. apply list_fmap_ext.
      intros i q Hq. reflexivity.
    + cbn [snd]. by rewrite list_fmap_id.
Qed.

(** No node is removed or renamed by the loop. *)
Lemma forEach_after_keeps n : ∀ k refs doc q m,
  (∀ h, h ∈ refs → heading_at doc h) →
  lookup_path q doc = Some m →
  ∃ m', lookup_path (follow k n refs q) (forEach_after k n refs doc).1 = Some m'
        ∧ label m' = label m.
Proof.
  induction n as [|n IH]; intros k refs doc q m Hrefs Hq; [by exists m|].
  cbn [forEach_after follow].
  destruct (refs !! k) as [h|] eqn:Hh; [|by exists m].
  assert (Hhead : heading_at doc h) by (by eapply Hrefs, list_elem_of_lookup_2).
  destruct Hhead as (Hne & mh & Hmh & Hhh).
  destruct (lookup_after_shift h annotation q doc m) as (m1 & Hm1 & Hl1 & _);
    [eauto|done|].
  destruct (IH (S k) (shift h <$> refs) (after h annotation doc) (shift h q) m1)
    as (m' & Hm' & Hl'); [|done|].
  - intros h1 Hh1. apply list_elem_of_fmap in Hh1 as (q1 & -> & Hq1).
    apply heading_at_shift; [by split; eauto|auto].
  - exists m'. split; [done|]. congruence.
Qed.

Lemma next_sibling_not_nil p : p ≠ [] → next_sibling p ≠ [].
Proof. destruct p as [|i [|]]; done. Qed.

Lemma next_sibling_app (s r : path) :
  r ≠ [] → next_sibling (s ++ r) = s ++ next_sibling r.
Proof.
  intros Hr. induction s as [|j s IH]; [done|].
  cbn [app]. destruct (s ++ r) as [|x l] eqn:E.
  - by destruct s, r.
  - rewrite next_sibling_cons. by rewrite IH.
Qed.

(** *** Later siblings *)

Lemma iter_next_not_nil t p : p ≠ [] → later_sibling t p ≠ [].
Proof.
  intros Hp. induction t as [|t IH]; [done|]. cbn.
  by apply next_sibling_not_nil.
Qed.

Lemma last_next_sibling p : last (next_sibling p) = S <$> last p.
Proof.
  induction p as [|i [|i' pr] IH]; [done|done|].
  rewrite next_sibling_cons.
  assert (Hn : next_sibling (i' :: pr) ≠ []) by (by apply next_sibling_not_nil).
  destruct (next_sibling (i' :: pr)) as [|x l] eqn:E; [done|].
  change (last (x :: l) = S <$> last (i' :: pr)). exact IH.
Qed.

Lemma last_iter_next t p :
  last (later_sibling t p) = (λ x, t + x) <$> last p.
Proof.
  induction t as [|t IH]; cbn.
  - by destruct (last p).
  - rewrite last_next_sibling, IH. by destruct (last p).
Qed.

Lemma iter_next_ne t p : p ≠ [] → (1 ≤ t)%nat → later_sibling t p ≠ p.
Proof.
  intros Hp Ht E. apply (f_equal last) in E. rewrite last_iter_next in E.
  destruct (last p) as [x|] eqn:L.
  - cbn in E. injection E as E. lia.
  - apply last_None in L. done.
Qed.

Lemma shift_next_self p :
  p ≠ [] → shift p (next_sibling p) = next_sibling (next_sibling p).
Proof.
  induction p as [|i [|i' pr] IH]; intros Hp; [done| |].
  - rewrite !next_sibling_last, shift_last. by rewrite decide_True by lia.
  - rewrite next_sibling_cons.
    assert (Hn : next_sibling (i' :: pr) ≠ []) by (by apply next_sibling_not_nil).
    destruct (next_sibling (i' :: pr)) as [|x l] eqn:E; [done|].
    rewrite shift_cons, decide_True by done.
    rewrite next_sibling_cons. f_equal. by apply IH.
Qed.

(** The later siblings of [p] move one place when a node is inserted
    after [p]. *)
Lemma shift_iter_next_self t p :
  p ≠ [] → (1 ≤ t)%nat →
  shift p (later_sibling t p) = later_sibling (S t) p.
Proof.
  intros Hp Ht. induction t as [|t IH]; [lia|].
  destruct t as [|t].
  - cbn. by apply shift_next_self.
  - change (later_sibling (S (S t)) p)
      with (next_sibling (later_sibling (S t) p)).
    rewrite shift_next_sibling.
    + rewrite IH by lia. reflexivity.
    + apply iter_next_ne; [done|lia].
    + by apply iter_next_not_nil.
Qed.

(** The later siblings of [q] go with [q] when a node is inserted after
    another node that is none of them. *)
Lemma shift_iter_next t p q :
  q ≠ [] → (∀ s, s < t → later_sibling s q ≠ p) →
  shift p (later_sibling t q) = later_sibling t (shift p q).
Proof.
  intros Hq. induction t as [|t IH]; intros Hne; [done|].
  cbn. rewrite shift_next_sibling.
  - rewrite IH; [done|]. intros s Hs. apply Hne. lia.
  - apply Hne. lia.
  - by apply iter_next_not_nil.
Qed.

Lemma shift_inj p q1 q2 : shift p q1 = shift p q2 → q1 = q2.
Proof.
  revert q1 q2. induction p as [|i [|i' pr] IH]; intros q1 q2 H; [done| |].
  - destruct q1 as [|j1 r1], q2 as [|j2 r2]; try done.
    + rewrite shift_nil_r, shift_last in H. by case_decide.
    + rewrite shift_nil_r, shift_last in H. by case_decide.
    + rewrite !shift_last in H. repeat case_decide; injection H as ? ?; subst;
        f_equal; lia.
  - destruct q1 as [|j1 r1], q2 as [|j2 r2]; try done.
    + rewrite shift_nil_r, shift_cons in H. by case_decide.
    + rewrite shift_nil_r, shift_cons in H. by case_decide.
    + rewrite !shift_cons in H.
      repeat case_decide; injection H as ? H; subst; try done.
      f_equal. by apply IH.
Qed.

(** *** Occurrences *)

Lemma occurrences_app q l1 l2 :
  occurrences q (l1 ++ l2) = occurrences q l1 + occurrences q l2.
Proof. unfold occurrences. by rewrite filter_app, length_app. Qed.

Lemma occurrences_singleton q h :
  occurrences q [h] = if decide (h = q) then 1 else 0.
Proof.
  unfold occurrences. case_decide.
  - by rewrite filter_cons_True.
  - by rewrite filter_cons_False.
Qed.

Lemma occurrences_fmap_shift p q l :
  occurrences (shift p q) (shift p <$> l) = occurrences q l.
Proof.
  unfold occurrences. induction l as [|x l IH]; [done|].
  rewrite fmap_cons. destruct (decide (x = q)) as [->|Hne].
  - rewrite !filter_cons_True by done. cbn. by rewrite IH.
  - rewrite !filter_cons_False; [done|done|].
    intros E. by apply shift_inj in E.
Qed.

Lemma occurrences_pos q l : (1 ≤ occurrences q l)%nat → q ∈ l.
Proof.
  unfold occurrences. intros H.
  destruct (filter (λ x, x = q) l) as [|x r] eqn:E; [cbn in H; lia|].
  assert (Hx : x ∈ filter (λ x, x = q) l) by (rewrite E; left).
  apply list_elem_of_filter in Hx as [-> ?]. done.
Qed.

(** *** The annotations that follow a heading *)

Lemma annotation_not_heading doc h a :
  heading_at doc h → lookup_path a doc = Some annotation → a ≠ h.
Proof.
  intros (_ & m & Hm & Hh) Ha ->.
  assert (m = annotation) as -> by congruence.
  by rewrite (annotation_no_heading [] annotation eq_refl) in Hh.
Qed.

Lemma annotation_stays doc h a :
  heading_at doc h → lookup_path a doc = Some annotation →
  lookup_path (shift h a) (after h annotation doc) = Some annotation.
Proof.
  intros (Hne & mh & Hmh & Hhh) Ha.
  destruct (lookup_after_shift h annotation a doc annotation)
    as (m' & Hm' & _ & He); [eauto|done|].
  rewrite Hm'. f_equal. apply He. right. intros [r ->].
  rewrite lookup_path_app, Ha in Hmh. cbn in Hmh.
  apply annotation_no_heading in Hmh. congruence.
Qed.

Lemma annotated_step k refs doc h :
  refs !! k = Some h →
  (∀ q, q ∈ refs → heading_at doc q) →
  annotated k refs doc →
  annotated (S k) (shift h <$> refs) (after h annotation doc).
Proof.
  intros Hk Hrefs Hinv q' t [Ht1 Ht2].
  assert (Hh : heading_at doc h) by (by eapply Hrefs, list_elem_of_lookup_2).
  rewrite <- fmap_take, (take_S_r _ _ _ Hk) in Ht2.
  assert (Hin : q' ∈ shift h <$> (take k refs ++ [h])).
  { apply occurrences_pos. lia. }
  apply list_elem_of_fmap in Hin as (q & -> & Hq).
  rewrite occurrences_fmap_shift, occurrences_app, occurrences_singleton in Ht2.
  assert (Hqh : heading_at doc q).
  { apply Hrefs. apply elem_of_app in Hq as [Hq|Hq].
    - by eapply subseteq_take.
    - apply list_elem_of_singleton in Hq as ->. by eapply list_elem_of_lookup_2. }
  assert (Hqne : q ≠ []) by apply Hqh.
  destruct (decide (h = q)) as [<-|Hne].
  - rewrite shift_self. destruct t as [|[|t]]; [lia| |].
    + cbn. apply lookup_after_next; [done|].
      destruct Hh as (_ & m & -> & _). eauto.
    + rewrite <- shift_iter_next_self by (done || lia).
      apply annotation_stays; [done|]. apply Hinv. lia.
  - rewrite <- shift_iter_next.
    + apply annotation_stays; [done|]. apply Hinv. lia.
    + done.
    + intros s Hs. destruct s as [|s]; [cbn; congruence|].
      apply (annotation_not_heading doc); [done|]. apply Hinv. lia.
Qed.

Lemma forEach_after_shared n : ∀ k refs doc,
  k + n = length refs →
  (∀ q, q ∈ refs → heading_at doc q) →
  annotated k refs doc →
  ∀ q t, (1 ≤ t ≤ occurrences q (forEach_after k n refs doc).2)%nat →
         lookup_path (later_sibling t q) (forEach_after k n refs doc).1
         = Some annotation.
Proof.
  induction n as [|n IH]; intros k refs doc Hk Hrefs Hinv.
  - cbn. intros q t Ht. apply Hinv. rewrite take_ge by lia. done.
  - cbn [forEach_after].
    destruct (refs !! k) as [h|] eqn:Hh.
    2:{ apply lookup_ge_None in Hh. lia. }
    apply IH.
    + rewrite length_fmap. lia.
    + intros q Hq. apply list_elem_of_fmap in Hq as (q0 & -> & Hq0).
      apply heading_at_shift; [|by apply Hrefs].
      by eapply Hrefs, list_elem_of_lookup_2.
    + by apply annotated_step.
Qed.

(** What followed a heading comes, in the end, after the annotations put
    after that heading. *)
Lemma forEach_after_next n : ∀ k refs doc q,
  k + n = length refs →
  (∀ q, q ∈ refs → heading_at doc q) →
  annotated k refs doc →
  q ∈ refs →
  follow k n refs (later_sibling (S (occurrences q (take k refs))) q)
  = later_sibling
      (S (occurrences (follow k n refs q) (forEach_after k n refs doc).2))
      (follow k n refs q).
Proof.
  induction n as [|n IH]; intros k refs doc q Hk Hrefs Hinv Hq.
  - cbn [follow forEach_after snd]. by rewrite take_ge by lia.
  - cbn [forEach_after follow].
    destruct (refs !! k) as [h|] eqn:Hh.
    2:{ apply lookup_ge_None in Hh. lia. }
    assert (Hhh : heading_at doc h) by (by eapply Hrefs, list_elem_of_lookup_2).
    assert (Hqh : heading_at doc q) by (by apply Hrefs).
    assert (Hqne : q ≠ []) by apply Hqh.
    assert (E : shift h (later_sibling (S (occurrences q (take k refs))) q)
                = later_sibling
                    (S (occurrences (shift h q) (take (S k) (shift h <$> refs))))
                    (shift h q)).
    { rewrite <- fmap_take, (take_S_r _ _ _ Hh).
      rewrite occurrences_fmap_shift, occurrences_app, occurrences_singleton.
      destruct (decide (h = q)) as [<-|Hne].
      - rewrite shift_self, shift_iter_next_self by (done || lia).
        f_equal. lia.
      - rewrite Nat.add_0_r. apply shift_iter_next; [done|].
        intros s Hs. destruct s as [|s]; [cbn; congruence|].
        apply (annotation_not_heading doc); [done|]. apply Hinv. lia. }
    rewrite E. apply IH.
    + rewrite length_fmap. lia.
    + intros q1 Hq1. apply list_elem_of_fmap in Hq1 as (q0 & -> & Hq0).
      apply heading_at_shift; [done|by apply Hrefs].
    + by apply annotated_step.
    + apply list_elem_of_fmap. eauto.
Qed.

Lemma occurrences_fmap_follow n : ∀ k refs q l,
  occurrences (follow k n refs q) (follow k n refs <$> l) = occurrences q l.
Proof.
  induction n as [|n IH]; intros k refs q l.
  - cbn. by rewrite list_fmap_id.
  - destruct (refs !! k) as [h|] eqn:Hh.
    + assert (E : follow k (S n) refs <$> l
                  = follow (S k) n (shift h <$> refs) <$> (shift h <$> l)).
      { rewrite <- list_fmap_compose. apply list_fmap_ext.
        intros i x Hx. cbn. by rewrite Hh. }
      rewrite E. cbn [follow]. rewrite Hh.
      by rewrite IH, occurrences_fmap_shift.
    + assert (E : follow k (S n) refs <$> l = l).
      { rewrite <- (list_fmap_id l) at 2. apply list_fmap_ext.
        intros i x Hx. cbn. by rewrite Hh. }
      rewrite E. cbn [follow]. by rewrite Hh.
Qed.

Lemma annotated_start refs doc : annotated 0 refs doc.
Proof. intros q t [H1 H2]. rewrite take_0 in H2. cbn in H2. lia. Qed.

(** The annotations of the sections that share a heading. *)
Lemma run_shared doc h :
  h ∈ located_headings doc →
  (∀ t, (1 ≤ t ≤ sharing doc h)%nat →
        lookup_path (later_sibling t (run_follow doc h)) (run doc)
        = Some annotation) ∧
  run_follow doc (next_sibling h)
  = later_sibling (S (sharing doc h)) (run_follow doc h).
Proof.
  intros Hh.
  assert (E : occurrences (run_follow doc h) (run_refs doc).2 = sharing doc h).
  { unfold run_refs, run_follow. rewrite forEach_after_refs.
    apply occurrences_fmap_follow. }
  split.
  - intros t Ht. unfold run. apply forEach_after_shared.
    + lia.
    + apply located_headings_heading_at.
    + apply annotated_start.
    + fold (run_refs doc). fold (run_follow doc h). lia.
  - rewrite <- E. unfold run_follow, run_refs.
    apply (forEach_after_next (length (located_headings doc)) 0
             (located_headings doc) doc h); [lia| | |done].
    + apply located_headings_heading_at.
    + apply annotated_start.
Qed.

Lemma occurrences_elem q l : q ∈ l → (1 ≤ occurrences q l)%nat.
Proof.
  intros Hq. unfold occurrences.
  assert (H : q ∈ filter (λ x, x = q) l) by (by apply list_elem_of_filter).
  destruct (filter (λ x, x = q) l); [by apply elem_of_nil in H|cbn; lia].
Qed.

(** C6, amended. One call of [run()] inserts exactly as many annotation
    paragraphs as there are [section] elements of class [informative] with
    a heading of level 2 to 6 below them; the marked sections without such
    a heading are passed over.  For each of the others the heading located
    is the first one below the section in document order, and after the
    run that heading (the same element) is immediately followed by an
    annotation paragraph.  A heading located for several marked sections
    is followed by as many annotation paragraphs as there are such
    sections, one after the other, and what followed the heading before
    the run comes right after them.  A marked section without such a
    heading is found after the run as it was, nothing inserted into it,
    and no node of the document is removed or renamed. *)
Theorem run_annotates (doc : node) :
  count_annotations (run doc)
    = count_annotations doc + length (sections_with_heading doc) ∧
  Forall2
    (λ s h', ∃ n h0 m m',
       lookup_path s doc = Some n ∧ matches section_informative n = true ∧
       querySelector heading_levels n = Some h0 ∧
       (∀ q, q ∈ querySelectorAll heading_levels n → q = h0 ∨ precedes h0 q) ∧
       lookup_path (s ++ h0) doc = Some m ∧ matches heading_levels m = true ∧
       lookup_path h' (run doc) = Some m' ∧ label m' = label m ∧
       lookup_path (next_sibling h') (run doc) = Some annotation ∧
       h' = run_follow doc (s ++ h0) ∧
       (1 ≤ sharing doc (s ++ h0))%nat ∧
       (∀ t, (1 ≤ t ≤ sharing doc (s ++ h0))%nat →
             lookup_path (later_sibling t h') (run doc) = Some annotation) ∧
       run_follow doc (next_sibling (s ++ h0))
         = later_sibling (S (sharing doc (s ++ h0))) h')
    (sections_with_heading doc) (run_refs doc).2 ∧
  (∀ s n, lookup_path s doc = Some n →
          matches section_informative n = true →
          querySelector heading_levels n = None →
          lookup_path (run_follow doc s) (run doc) = Some n) ∧
  (∀ q m, lookup_path q doc = Some m →
          ∃ m', lookup_path (run_follow doc q) (run doc) = Some m' ∧
                label m' = label m).
Proof.
  pose proof (omap_filter_Forall2 (heading_of doc)
                (querySelectorAll section_informative doc)) as HF.
  fold (sections_with_heading doc) in HF. fold (located_headings doc) in HF.
  pose proof (located_headings_heading_at doc) as Hheads.
  destruct (forEach_after_spec (length (located_headings doc)) 0
              (located_headings doc) doc) as (Hc & Hl & Hr);
    [lia | done | intros; lia |].
  pose proof (forEach_after_refs (length (located_headings doc)) 0
                (located_headings doc) doc) as Hrefs.
  fold (run_refs doc) in Hc, Hl, Hr, Hrefs. fold (run doc) in Hc, Hr.
  pose proof (Forall2_length _ _ _ HF) as Hlen.
  split; [lia|]. split; [|split].
  2:{ intros s n Hs Hm Hq. unfold run, run_refs, run_follow.
      apply forEach_after_frame;
        [lia | done | done | by apply section_without_heading]. }
  2:{ intros q m Hq. unfold run, run_refs, run_follow.
      by apply forEach_after_keeps. }
  apply Forall2_same_length_lookup_2; [lia|].
  intros j s h' Hs Hh'.
  destruct (Forall2_lookup_l _ _ _ _ _ HF Hs) as (h & Hh & Hof).
  destruct (Hr j h h' Hh Hh') as ((m & m' & Hm & Hm' & Hlab) & Hann).
  destruct (heading_of_Some _ _ _ Hof) as (n & h0 & Hn & Hq & ->).
  assert (Hsec : matches section_informative n = true).
  { apply list_elem_of_lookup_2 in Hs. unfold sections_with_heading in Hs.
    apply list_elem_of_filter in Hs as [_ Hs].
    apply elem_of_querySelectorAll in Hs as (_ & n' & Hn' & ?). congruence. }
  assert (Hin : s ++ h0 ∈ located_headings doc) by (by eapply list_elem_of_lookup_2).
  destruct (Hheads (s ++ h0) Hin) as (_ & m0 & Hm0 & Hmh).
  assert (E : h' = run_follow doc (s ++ h0)).
  { rewrite Hrefs, list_lookup_fmap, Hh in Hh'. by injection Hh' as <-. }
  destruct (run_shared doc (s ++ h0) Hin) as [Hshared Hnext].
  rewrite <- E in Hshared, Hnext.
  exists n, h0, m, m'.
  split; [done|]. split; [done|]. split; [done|].
  split; [intros q Hq'; by eapply querySelector_first|].
  split; [done|]. split; [congruence|]. split; [done|]. split; [done|].
  split; [done|]. split; [done|].
  split; [by apply occurrences_elem|]. split; [exact Hshared|exact Hnext].
Qed.

(** *** On concrete documents *)

(** The informative section of the example, after [run()]. *)
Example run_doc_example :
  run doc_example =
    Element "body" [] []
      [Element "section" [] ["informative"]
         [Element "h3" [] [] [Text "Foo"];
          Element "p" [] []
            [Element "em" [] [] [Text "This section is non-normative."]]]].
Proof. reflexivity. Qed.

Lemma run_annotates_witness :
  count_annotations (run doc_mixed) = 1 ∧
  lookup_path [0; 1] (run doc_mixed) = Some annotation ∧
  run_follow doc_mixed [1] = [1] ∧
  lookup_path [1] (run doc_mixed)
    = Some (Element "section" [] ["informative"]
              [Element "p" [] [] [Text "Aside."]]) ∧
  sharing doc_nested [0; 0; 0] = 2 ∧
  lookup_path [0; 0; 1] (run doc_nested) = Some annotation ∧
  lookup_path [0; 0; 2] (run doc_nested) = Some annotation.
Proof.
  destruct (run_annotates doc_mixed) as (Hcount & Hfollowed & Hskipped & _).
  destruct (run_annotates doc_nested) as (_ & Hnested & _).
  split; [exact Hcount|].
  split; [|split; [reflexivity|split; [|split; [reflexivity|]]]].
  - apply Forall2_lookup_l with (i := 0) (x := [0]) in Hfollowed;
      [|reflexivity].
    destruct Hfollowed
      as (h' & Hh' & n & h0 & m & m' & _ & _ & _ & _ & _ & _ & _ & _ & H & _).
    assert (E : h' = [0; 0]) by (injection Hh' as <-; reflexivity).
    rewrite E in H. exact H.
  - apply (Hskipped [1]); reflexivity.
  - apply Forall2_lookup_l with (i := 0) (x := [0]) in Hnested;
      [|reflexivity].
    destruct Hnested
      as (h' & Hh' & n & h0 & m & m' & Hn & _ & Hq & _ & _ & _ & _ & _ & _
          & _ & _ & H & _).
    assert (E : h' = [0; 0; 0]) by (injection Hh' as <-; reflexivity).
    assert (E0 : h0 = [0; 0]).
    { injection Hn as <-. injection Hq as <-. reflexivity. }
    rewrite E, E0 in H.
    assert (S2 : sharing doc_nested ([0] ++ [0; 0]) = 2) by reflexivity.
    rewrite S2 in H.
    split; [apply (H 1); lia | apply (H 2); lia].
Defined.

Example run_refs_doc_example :
  sections_with_heading doc_example = [[0]] ∧
  located_headings doc_example = [[0; 0]] ∧
  (run_refs doc_example).2 = [[0; 0]].
Proof. repeat split. Qed.

(** C6 as stated fails when marked sections share their first heading.
    In [doc_nested] two marked sections have a heading below them and two
    annotations are inserted, both after the one heading: the second of
    them follows the first, not a heading. *)
Lemma run_nested_sections_share_heading :
  length (sections_with_heading doc_nested) = 2 ∧
  count_annotations doc_nested = 0 ∧
  count_annotations (run doc_nested) = 2 ∧
  run doc_nested =
    Element "body" [] []
      [Element "section" [] ["informative"]
         [Element "section" [] ["informative"]
            [Element "h3" [] [] [Text "Foo"]; annotation; annotation]]] ∧
  ¬ each_annotation_follows_heading (run doc_nested).
Proof.
  split; [reflexivity|]. split; [reflexivity|]. split; [reflexivity|].
  split; [reflexivity|].
  intros H.
  destruct (H [0; 0; 2] annotation eq_refl eq_refl) as (h & m & Hp & Hm & Hh).
  cbn in Hp. injection Hp as <-.
  cbn in Hm. injection Hm as <-.
  discriminate Hh.
Qed.

End InformativeSpec.

(** ** The build script *)

Module BuilderSpec.
Import Builder Samples.

Lemma bind_inr {A B} (m : M A) (f : A → M B) s a s' :
  m s = (inr a, s') → (m ≫= f) s = f a s'.
Proof. intros H. unfold mbind, M_bind. by rewrite H. Qed.

Lemma bind_inl {A B} (m : M A) (f : A → M B) s e s' :
  m s = (inl e, s') → (m ≫= f) s = (inl e, s').
Proof. intros H. unfold mbind, M_bind. by rewrite H. Qed.

Section Script.
Variable root : string.
Variable resolve : string → option string.
Variable webpack : config → M stats.
Variable commandLineArgs : list string → error + parsedArgs.
Variable usage : string.
Variable version_of : string → error + string.

Local Abbreviation build := (build root resolve webpack version_of).
Local Abbreviation run :=
  (run root resolve webpack commandLineArgs usage version_of).
Local Abbreviation getRespecVersion := (getRespecVersion root version_of).

Lemma require_resolve_None r s :
  resolve r = None → require_resolve resolve r s = (inl (ModuleNotFound r), s).
Proof. intros H. unfold require_resolve. by rewrite H. Qed.

Lemma require_resolve_Some r f s :
  resolve r = Some f → require_resolve resolve r s = (inr f, s).
Proof. intros H. unfold require_resolve. by rewrite H. Qed.

(** The entry module of the profile cannot be resolved: [build] throws, and
    what it throws, once the version has been read, is the error of
    [require.resolve] that names the module. *)
Lemma build_unresolved name dbg s :
  missing (Some name) = false →
  resolve (profile_module name) = None →
  ∃ e s', build (Some name) dbg s = (inl e, s') ∧
    (∀ v s1, getRespecVersion (logged name s) = (inr v, s1) →
             e = ModuleNotFound (profile_module name)).
Proof.
  intros Hm Hr. unfold Builder.build. rewrite Hm. cbn [from_option id].
  erewrite bind_inr by reflexivity.
  fold (logged name s).
  destruct (getRespecVersion (logged name s)) as [[e|v] s1] eqn:Hv.
  - erewrite bind_inl by exact Hv. eexists _, _. split; [reflexivity|].
    intros v s1' Hv'. congruence.
  - erewrite bind_inr by exact Hv.
    erewrite bind_inl by (by apply require_resolve_None).
    eexists _, _. split; [reflexivity|]. done.
Qed.

(** The bundler reports compile errors: [build] throws an error made of them. *)
Lemma build_compile_errors name dbg s v s1 f1 f2 st s2 :
  missing (Some name) = false →
  getRespecVersion (logged name s) = (inr v, s1) →
  resolve (profile_module name) = Some f1 →
  resolve "../js/shortcut.js" = Some f2 →
  webpack (build_config root name dbg f1 f2) s1 = (inr st, s2) →
  hasErrors st = true →
  build (Some name) dbg s = (inl (CompileErrors (errors st)), s2).
Proof.
  intros Hm Hv Hr1 Hr2 Hw He. unfold Builder.build. rewrite Hm.
  cbn [from_option id].
  erewrite bind_inr by reflexivity. fold (logged name s).
  erewrite bind_inr by exact Hv.
  erewrite bind_inr by (by apply require_resolve_Some).
  erewrite bind_inr by (by apply require_resolve_Some).
  erewrite bind_inr by exact Hw.
  rewrite He. reflexivity.
Qed.

(** C8. The script exits with code 127 when the parsing of the arguments
    fails, with code 0 on [--help] and when the build succeeds, and with
    code 1, the error printed, when the build fails.  [build] fails when
    the entry module of the named profile cannot be resolved, with the
    error naming that module, and when the bundler reports compile errors,
    with an error made of them. *)
Theorem build_script_exit_codes (argv : list string) (s : state) :
  (∀ err, commandLineArgs argv = inl err → (run argv s).1 = Exit 127) ∧
  (∀ a, commandLineArgs argv = inr a → help a = true →
        (run argv s).1 = Exit 0) ∧
  (∀ a s', commandLineArgs argv = inr a → help a = false →
           missing (profile a) = false →
           build (profile a) (debug a) s = (inr tt, s') →
           (run argv s).1 = Exit 0) ∧
  (∀ a e s', commandLineArgs argv = inr a → help a = false →
             missing (profile a) = false →
             build (profile a) (debug a) s = (inl e, s') →
             (run argv s).1 = Exit 1 ∧ stack e ∈ console (run argv s).2) ∧
  (∀ name dbg, missing (Some name) = false →
               resolve (profile_module name) = None →
               ∃ e s', build (Some name) dbg s = (inl e, s') ∧
                 (∀ v s1, getRespecVersion (logged name s) = (inr v, s1) →
                          e = ModuleNotFound (profile_module name))) ∧
  (∀ name dbg v s1 f1 f2 st s2,
     missing (Some name) = false →
     getRespecVersion (logged name s) = (inr v, s1) →
     resolve (profile_module name) = Some f1 →
     resolve "../js/shortcut.js" = Some f2 →
     webpack (build_config root name dbg f1 f2) s1 = (inr st, s2) →
     hasErrors st = true →
     build (Some name) dbg s = (inl (CompileErrors (errors st)), s2)).
Proof.
  split; [|split; [|split; [|split; [|split]]]].
  - intros err Hp. unfold Builder.run. by rewrite Hp.
  - intros a Hp Hh. unfold Builder.run. by rewrite Hp, Hh.
  - intros a s' Hp Hh Hm Hb. unfold Builder.run. by rewrite Hp, Hh, Hm, Hb.
  - intros a e s' Hp Hh Hm Hb. unfold Builder.run. rewrite Hp, Hh, Hm, Hb.
    split; [reflexivity|]. cbn. apply elem_of_app. right. by left.
  - intros name dbg. apply build_unresolved.
  - intros name dbg v s1 f1 f2 st s2. apply build_compile_errors.
Qed.

End Script.

(** *** On a concrete project *)

Lemma build_script_exit_codes_witness :
  let cli := run project_root project_resolve bundler_ok parse_args "usage"
                 read_version in
  let cli_errors := run project_root project_resolve bundler_errors parse_args
                        "usage" read_version in
  (cli ["--bogus"] project_files).1 = Exit 127 ∧
  (cli ["--help"] project_files).1 = Exit 0 ∧
  (cli ["--profile"; "netage"] project_files).1 = Exit 0 ∧
  (cli ["--profile"; "w3c"] project_files).1 = Exit 1 ∧
  (cli_errors ["--profile"; "netage"] project_files).1 = Exit 1.
Proof.
  intros cli cli_errors.
  split; [|split; [|split; [|split]]].
  - destruct (build_script_exit_codes project_root project_resolve bundler_ok
                parse_args "usage" read_version ["--bogus"] project_files)
      as (H & _).
    apply (H (LibraryError "UNKNOWN_OPTION")). reflexivity.
  - destruct (build_script_exit_codes project_root project_resolve bundler_ok
                parse_args "usage" read_version ["--help"] project_files)
      as (_ & H & _).
    apply (H (ParsedArgs true None false)); reflexivity.
  - destruct (build_script_exit_codes project_root project_resolve bundler_ok
                parse_args "usage" read_version ["--profile"; "netage"]
                project_files)
      as (_ & _ & H & _).
    eapply (H (ParsedArgs false (Some "netage") false));
      [reflexivity | reflexivity | reflexivity | vm_compute; reflexivity].
  - destruct (build_script_exit_codes project_root project_resolve bundler_ok
                parse_args "usage" read_version ["--profile"; "w3c"]
                project_files)
      as (_ & _ & _ & H & Hunresolved & _).
    destruct (Hunresolved "w3c" false eq_refl eq_refl) as (e & s' & Hb & _).
    apply (H (ParsedArgs false (Some "w3c") false) e s' eq_refl eq_refl eq_refl Hb).
  - destruct (build_script_exit_codes project_root project_resolve bundler_errors
                parse_args "usage" read_version ["--profile"; "netage"]
                project_files)
      as (_ & _ & _ & H & _ & Herrors).
    eapply (H (ParsedArgs false (Some "netage") false) _ _ eq_refl eq_refl eq_refl).
    eapply (Herrors "netage" false); try reflexivity.
Defined.

End BuilderSpec.

(** ** More on the defaults merger *)

Module DefaultsLaws.
Import Js Defaults DefaultsSpec Samples.

Section Run.
Context {unicode : Unicode}.
Variable coreDefaults : object.
Variable definitionMap : value.

Local Abbreviation run := (run coreDefaults definitionMap).
Local Abbreviation run_lint := (run_lint coreDefaults).
Local Abbreviation lint_union := (lint_union coreDefaults).

Lemma is_str_dec (v : value) (lit : string) : v = VStr lit ∨ v ≠ VStr lit.
Proof.
  destruct (strict_eq_str v lit) eqn:E.
  - left. by apply strict_eq_str_spec.
  - right. intros H. apply strict_eq_str_spec in H. congruence.
Qed.

Lemma is_false_dec (v : value) : v = VBool false ∨ v ≠ VBool false.
Proof.
  destruct (strict_eq_false v) eqn:E.
  - left. by apply strict_eq_false_spec.
  - right. intros H. apply strict_eq_false_spec in H. congruence.
Qed.

Lemma run_unofficial (conf : object) :
  get conf "specStatus" = VStr "unofficial" → run conf = conf.
Proof. intros H. unfold Defaults.run. by rewrite H. Qed.

Lemma union_absorb (a b : object) : (a ∪ b) ∪ b = a ∪ b.
Proof.
  apply map_eq. intros k. rewrite !lookup_union.
  by destruct (a !! k), (b !! k).
Qed.

Lemma get_insert_eq (o : object) k v : get (<[k := v]> o) k = v.
Proof. unfold get. by rewrite lookup_insert_eq. Qed.

Lemma get_insert_ne (o : object) k k' v :
  k ≠ k' → get (<[k := v]> o) k' = get o k'.
Proof. intros H. unfold get. by rewrite lookup_insert_ne. Qed.

Lemma run_lint_fixed (conf : object) (o : object) :
  get o "lint" = run_lint conf → run_lint o = run_lint conf.
Proof.
  intros Ho.
  destruct (strict_eq_false (get conf "lint")) eqn:E.
  - apply strict_eq_false_spec in E.
    rewrite (run_lint_false coreDefaults conf E) in Ho |- *.
    by apply run_lint_false.
  - assert (Hc : get conf "lint" ≠ VBool false).
    { intros Hc. apply strict_eq_false_spec in Hc. congruence. }
    rewrite (run_lint_union coreDefaults conf Hc) in Ho |- *.
    rewrite run_lint_union by (rewrite Ho; discriminate).
    f_equal. unfold Defaults.lint_union. rewrite Ho. cbn [own_props].
    unfold Defaults.lint_union. by rewrite union_absorb.
Qed.

(** X1. Running the defaults merger on its own result changes nothing
    more: [run] is idempotent, whatever the configuration. *)
Theorem run_idempotent (conf : object) : run (run conf) = run conf.
Proof.
  destruct (is_str_dec (get conf "specStatus") "unofficial") as [Hu|Hu].
  { by rewrite !(run_unofficial conf Hu). }
  destruct (is_str_dec (get (run conf) "specStatus") "unofficial") as [Hu'|Hu'].
  { by apply run_unofficial. }
  rewrite (run_official coreDefaults definitionMap (run conf) Hu').
  assert (Hl : get (run conf) "lint" = run_lint conf).
  { rewrite (run_official coreDefaults definitionMap conf Hu).
    by rewrite get_insert_ne, get_insert_eq. }
  rewrite (run_lint_fixed conf (run conf) Hl).
  rewrite (run_official coreDefaults definitionMap conf Hu).
  set (U := conf ∪ (netageDefaults ∪ coreDefaults)).
  set (L := run_lint conf).
  apply map_eq. intros k.
  destruct (decide (k = "definitionMap")) as [->|Hd]; [by rewrite !lookup_insert_eq|].
  rewrite !(lookup_insert_ne _ "definitionMap") by done.
  destruct (decide (k = "lint")) as [->|Hk]; [by rewrite !lookup_insert_eq|].
  rewrite !(lookup_insert_ne _ "lint") by done.
  rewrite lookup_union, !lookup_insert_ne by done.
  subst U. rewrite !lookup_union.
  by destruct (conf !! k), (netageDefaults !! k), (coreDefaults !! k).
Qed.

(** X2. [run] removes no key of the configuration; unless the status is
    ["unofficial"], the keys afterwards are exactly those of the user, of
    the profile defaults and of the core defaults, and [definitionMap]. *)
Theorem run_keys (conf : object) :
  dom conf ⊆ dom (run conf) ∧
  (get conf "specStatus" ≠ VStr "unofficial" →
   dom (run conf)
   = dom conf ∪ dom netageDefaults ∪ dom coreDefaults ∪ {["definitionMap"]}).
Proof.
  assert (Hlint : "lint" ∈ dom netageDefaults).
  { apply elem_of_dom. eexists. reflexivity. }
  split.
  - destruct (is_str_dec (get conf "specStatus") "unofficial") as [Hu|Hu].
    + by rewrite (run_unofficial conf Hu).
    + rewrite (run_official coreDefaults definitionMap conf Hu).
      rewrite !dom_insert_L, !dom_union_L. intros k Hk.
      rewrite !elem_of_union. auto.
  - intros Hu. rewrite (run_official coreDefaults definitionMap conf Hu).
    rewrite !dom_insert_L, !dom_union_L. apply set_eq. intros k.
    rewrite !elem_of_union, !elem_of_singleton. split.
    + intros [->|[->|[H|[H|H]]]]; auto.
    + intros [[[H|H]|H]|H]; auto.
Qed.

(** X3. Unless the status is ["unofficial"], the lint after [run] is
    [false] exactly when the user's lint is [false]; otherwise it is an
    object, whatever the user's lint was. *)
Theorem run_lint_false_iff (conf : object) :
  get conf "specStatus" ≠ VStr "unofficial" →
  (get (run conf) "lint" = VBool false ↔ get conf "lint" = VBool false) ∧
  (get conf "lint" ≠ VBool false → ∃ o, get (run conf) "lint" = VObj o).
Proof.
  intros Hu.
  assert (Hl : get (run conf) "lint" = run_lint conf).
  { rewrite (run_official coreDefaults definitionMap conf Hu).
    by rewrite get_insert_ne, get_insert_eq. }
  rewrite Hl. split; [split|].
  - intros H. destruct (is_false_dec (get conf "lint")) as [|Hn]; [done|].
    rewrite (run_lint_union coreDefaults conf Hn) in H. discriminate.
  - apply run_lint_false.
  - intros Hn. rewrite (run_lint_union coreDefaults conf Hn). eauto.
Qed.

(** X4. The profile's rule [privsec-section] is switched on after [run]
    whenever linting is not disabled and the user's lint has no own
    property of that name, whatever the core defaults say. *)
Theorem run_privsec_default (conf : object) :
  get conf "specStatus" ≠ VStr "unofficial" →
  get conf "lint" ≠ VBool false →
  own_props (get conf "lint") !! "privsec-section" = None →
  own_props (get (run conf) "lint") !! "privsec-section" = Some (VBool true).
Proof.
  intros Hu Hn Hp.
  assert (Hl : get (run conf) "lint" = run_lint conf).
  { rewrite (run_official coreDefaults definitionMap conf Hu).
    by rewrite get_insert_ne, get_insert_eq. }
  rewrite Hl, (run_lint_union coreDefaults conf Hn). cbn [own_props].
  unfold Defaults.lint_union. rewrite lookup_union, Hp, (left_id_L None _).
  rewrite lookup_union.
  by destruct (own_props (get coreDefaults "lint") !! "privsec-section").
Qed.
End Run.

(** *** On concrete configurations *)

Section Examples.
#[local] Existing Instance sample_unicode.

Lemma run_keys_witness :
  get conf_lint "specStatus" ≠ VStr "unofficial" ∧
  dom (run core_sample (VObj ∅) conf_lint)
  = dom conf_lint ∪ dom netageDefaults ∪ dom core_sample ∪ {["definitionMap"]}.
Proof.
  assert (Hs : get conf_lint "specStatus" ≠ VStr "unofficial") by discriminate.
  split; [exact Hs|].
  exact (proj2 (run_keys core_sample (VObj ∅) conf_lint) Hs).
Defined.

Lemma run_lint_false_iff_witness :
  get conf_lint "specStatus" ≠ VStr "unofficial" ∧
  get conf_lint "lint" ≠ VBool false ∧
  get (run core_sample (VObj ∅) conf_lint) "lint" ≠ VBool false ∧
  ∃ o, get (run core_sample (VObj ∅) conf_lint) "lint" = VObj o.
Proof.
  assert (Hs : get conf_lint "specStatus" ≠ VStr "unofficial") by discriminate.
  assert (Hl : get conf_lint "lint" ≠ VBool false) by discriminate.
  destruct (run_lint_false_iff core_sample (VObj ∅) conf_lint Hs) as [Hiff Hobj].
  split; [exact Hs|]. split; [exact Hl|]. split.
  - intros H. exact (Hl (proj1 Hiff H)).
  - exact (Hobj Hl).
Defined.

Lemma run_privsec_default_witness :
  get conf_lint "specStatus" ≠ VStr "unofficial" ∧
  get conf_lint "lint" ≠ VBool false ∧
  own_props (get conf_lint "lint") !! "privsec-section" = None ∧
  own_props (get (run core_sample (VObj ∅) conf_lint) "lint") !! "privsec-section"
    = Some (VBool true).
Proof.
  assert (Hs : get conf_lint "specStatus" ≠ VStr "unofficial") by discriminate.
  assert (Hl : get conf_lint "lint" ≠ VBool false) by discriminate.
  assert (Hp : own_props (get conf_lint "lint") !! "privsec-section" = None)
    by reflexivity.
  split; [exact Hs|]. split; [exact Hl|]. split; [exact Hp|].
  exact (run_privsec_default core_sample (VObj ∅) conf_lint Hs Hl Hp).
Defined.

End Examples.

End DefaultsLaws.

(** ** More on the style plugin *)

Module StyleLaws.
Import Js Dom DomFacts Style StyleSpec Samples.

Section Host.
Context {unicode : Unicode} {engine : SelectorEngine}.

(** X5. In both revisions [run] publishes one ["warn"] event when the
    status is absent (falsy) and publishes nothing when it is present; with
    a status present the configuration is left as it was. *)
Theorem run_warns_iff_missing (w : world) :
  published (run w).1 =
    (if truthy (get (conf w) "specStatus") then published w
     else published w ++ [("warn", Message warn)]) ∧
  published (NetageStyle.run w).1 =
    (if truthy (get (conf w) "specStatus") then published w
     else published w ++ [("warn", Message NetageStyle.warn)]) ∧
  (truthy (get (conf w) "specStatus") = true →
   conf (run w).1 = conf w ∧ conf (NetageStyle.run w).1 = conf w).
Proof.
  destruct (truthy (get (conf w) "specStatus")) eqn:T.
  - unfold run, NetageStyle.run. rewrite T. cbn [negb].
    destruct (get (conf w) "specStatus"); cbn; try done.
    destruct (negb _); done.
  - rewrite (run_without_status w T), (netage_run_without_status w T).
    cbn [fst].
    split; [|split; [|done]].
    + match goal with |- context [pub ?a ?b ?c] =>
        pose proof (pub_frame a b c) as F; set (W := (pub a b c).1) in * end.
      cbv zeta in F. destruct F as (_ & _ & Fp & _).
      destruct (negb _); cbn; by rewrite Fp.
    + match goal with |- context [pub ?a ?b ?c] =>
        pose proof (pub_frame a b c) as F; set (W := (pub a b c).1) in * end.
      cbv zeta in F. destruct F as (_ & _ & Fp & _).
      cbn. by rewrite Fp.
Qed.





(** *** The style mover *)

Lemma querySelector_skip sel (l1 : list node) (n : node) (l2 : list node) :
  querySelector sel (head_element l1) = None →
  matches sel n = true →
  querySelector sel (head_element (l1 ++ n :: l2)) = Some [length l1].
Proof.
  unfold querySelector, querySelectorAll. cbn [children head_element].
  intros Hnone Hn. apply head_None in Hnone.
  rewrite fmap_app, imap_app, join_app, Hnone, app_nil_l.
  assert (Hfirst : ∃ rest, matching (matches sel) n = [] :: rest).
  { destruct n; cbn [matching]; rewrite Hn; eauto. }
  destruct Hfirst as [rest Hrest].
  rewrite length_fmap, fmap_cons, imap_cons, Hrest. cbn.
  by rewrite Nat.add_0_r.
Qed.

(** X7. For a plain URL (printable ASCII characters, no double quote and
    no backslash): when the first link with that [href] in the head is the
    stylesheet link, the function returned by [styleMover] moves it behind
    every other child of the head and keeps the others in their order. *)
Theorem styleMover_after_link (url : string) (hd extra : list node) :
  plain url = true →
  querySelector (link_with_href url) (head_element hd) = None →
  styleMover url (hd ++ [stylesheet_link url] ++ extra)
  = inr (hd ++ extra ++ [stylesheet_link url]).
Proof.
  intros Hp Hnone. unfold styleMover, find_link. rewrite Hp.
  assert (Hm : matches (link_with_href url) (stylesheet_link url) = true).
  { cbn. by rewrite String.eqb_refl. }
  cbn [app]. rewrite (querySelector_skip _ hd _ extra Hnone Hm).
  cbn [lookup_path head_element children].
  rewrite list_lookup_middle by done. cbn.
  rewrite delete_middle. by rewrite <- app_assoc.
Qed.

(** X8. For a plain URL: when nothing in the head is a link with that
    [href], the function returned by [styleMover] hands [null] to
    [append], which adds the text ["null"] at the end of the head and
    removes nothing. *)
Theorem styleMover_missing_link (url : string) (hd : list node) :
  plain url = true →
  (∀ p n, p ≠ [] → lookup_path p (head_element hd) = Some n →
          matches (link_with_href url) n = false) →
  styleMover url hd = inr (hd ++ [Text "null"]).
Proof.
  intros Hp H. apply styleMover_without_link; [done|].
  destruct (querySelector _ _) as [p|] eqn:E; [|done].
  apply querySelector_Some in E as (Hne & n & Hn & Hm).
  specialize (H p n Hne Hn). congruence.
Qed.

(** *** The module-level code *)

Lemma viewport_count_after_load (elements : list node) (meta : node) (hd : list node) :
  length (viewport_metas elements) = 0 →
  matches meta_viewport meta = true →
  length (matching (matches meta_viewport) meta) = 1 →
  length (viewport_metas
            ((match querySelector meta_viewport (head_element hd) with
              | None => meta :: elements
              | Some _ => elements
              end) ++ hd))
  = Nat.max 1 (length (viewport_metas hd)).
Proof.
  intros He Hm Hm1.
  destruct (querySelector meta_viewport (head_element hd)) as [p|] eqn:E.
  - rewrite length_viewport_metas_app, He.
    assert (length (viewport_metas hd) ≠ 0); [|lia].
    unfold querySelector in E. apply head_Some in E as [l' El'].
    unfold viewport_metas. by rewrite El'.
  - rewrite <- app_comm_cons, length_viewport_metas_cons,
      length_viewport_metas_app, He, Hm1, (no_viewport_meta _ E). done.
Qed.

(** X9. In both revisions the code run when the module is loaded puts
    its elements in front of the head and removes or reorders nothing of
    what the head held; the number of viewport [meta] elements afterwards
    is the number before, or one when there was none. *)
Theorem load_keeps_one_viewport_meta
    (toKeyValuePairs : list (string * string) → string) (w : world) :
  length (viewport_metas (head (load toKeyValuePairs w)))
    = Nat.max 1 (length (viewport_metas (head w))) ∧
  length (viewport_metas (head (NetageStyle.load toKeyValuePairs w)))
    = Nat.max 1 (length (viewport_metas (head w))) ∧
  head w `suffix_of` head (load toKeyValuePairs w) ∧
  head w `suffix_of` head (NetageStyle.load toKeyValuePairs w).
Proof.
  split.
  { unfold load. cbn [head with_head].
    by apply viewport_count_after_load. }
  split.
  { unfold NetageStyle.load. cbn [head with_head].
    by apply viewport_count_after_load. }
  split; eexists; reflexivity.
Qed.

(** *** The content of the viewport meta element *)

Lemma remove_quotes_filter (s : string) :
  list_ascii_of_string (remove_quotes s)
  = filter (λ c, c ≠ double_quote) (list_ascii_of_string s).
Proof.
  induction s as [|c s IH]; [reflexivity|].
  cbn [remove_quotes list_ascii_of_string].
  destruct (Ascii.eqb_spec c double_quote) as [->|Hc].
  - rewrite filter_cons_False by (intros H; by apply H). exact IH.
  - rewrite filter_cons_True by done. cbn. by rewrite IH.
Qed.

(** X10. Whatever the function [toKeyValuePairs] returns, the [content]
    of the viewport [meta] element is that text with every double quote
    taken out and nothing else changed. *)
Theorem viewport_content_unquoted
    (toKeyValuePairs : list (string * string) → string) :
  ∃ content,
    getAttribute "content" (createMetaViewport toKeyValuePairs) = Some content ∧
    (double_quote ∉ list_ascii_of_string content) ∧
    list_ascii_of_string content
    = filter (λ c, c ≠ double_quote)
             (list_ascii_of_string (toKeyValuePairs contentProps)).
Proof.
  eexists. split; [reflexivity|]. rewrite remove_quotes_filter. split; [|done].
  intros H. apply list_elem_of_filter in H as [H _]. by apply H.
Qed.

End Host.

(** *** On concrete pages *)

Section Examples.
#[local] Existing Instance sample_unicode.
#[local] Existing Instance sample_engine.

Lemma run_warns_iff_missing_witness :
  let w := page {[ "specStatus" := VStr "netage-cv" ]} in
  truthy (get (conf w) "specStatus") = true ∧
  conf (run w).1 = conf w ∧ conf (NetageStyle.run w).1 = conf w.
Proof.
  intros w.
  assert (T : truthy (get (conf w) "specStatus") = true) by reflexivity.
  split; [exact T|].
  exact (proj2 (proj2 (run_warns_iff_missing w)) T).
Defined.


Lemma styleMover_after_link_witness :
  plain "https://example.org/base.css" = true ∧
  querySelector (link_with_href "https://example.org/base.css")
                (head_element [late_script]) = None ∧
  styleMover "https://example.org/base.css"
    [late_script; stylesheet_link "https://example.org/base.css"; late_script]
  = inr [late_script; late_script;
         stylesheet_link "https://example.org/base.css"].
Proof.
  assert (Hp : plain "https://example.org/base.css" = true) by reflexivity.
  assert (Hn : querySelector (link_with_href "https://example.org/base.css")
                 (head_element [late_script]) = None) by reflexivity.
  split; [exact Hp|]. split; [exact Hn|].
  exact (styleMover_after_link "https://example.org/base.css"
           [late_script] [late_script] Hp Hn).
Defined.

Lemma styleMover_missing_link_witness :
  plain "https://example.org/base.css" = true ∧
  styleMover "https://example.org/base.css" [late_script]
  = inr [late_script; Text "null"].
Proof.
  assert (Hp : plain "https://example.org/base.css" = true) by reflexivity.
  split; [exact Hp|].
  apply (styleMover_missing_link "https://example.org/base.css" [late_script] Hp).
  intros p n Hne Hl.
  destruct p as [|[|i] [|j r]]; [done| | |discriminate Hl|discriminate Hl].
  - injection Hl as <-. reflexivity.
  - discriminate Hl.
Defined.

End Examples.

End StyleLaws.

(** ** More on the informative plugin *)

Module InformativeLaws.
Import Dom DomFacts Informative InformativeSpec Samples.

(** X16. When no marked section of the document has a heading of level
    2 to 6, [run] leaves the document exactly as it is. *)
Theorem run_nothing_to_annotate (doc : node) :
  sections_with_heading doc = [] → run doc = doc.
Proof.
  intros H. unfold run, run_refs.
  pose proof (length_located_headings doc) as L. rewrite H in L.
  destruct (located_headings doc); [reflexivity|done].
Qed.

(** X17. [run] removes and renames nothing: a node of the document is
    still in the document afterwards, where its reference has moved to,
    with the same name, attributes and classes. *)
Theorem run_keeps_nodes (doc : node) (q : path) (m : node) :
  lookup_path q doc = Some m →
  ∃ m', lookup_path (run_follow doc q) (run doc) = Some m' ∧ label m' = label m.
Proof.
  intros Hq. unfold run, run_refs, run_follow.
  apply forEach_after_keeps; [|done].
  apply located_headings_heading_at.
Qed.

(** A reference below another one stays below it. *)
Lemma shift_app p s r :
  ∃ r', shift p (s ++ r) = shift p s ++ r' ∧ length r' = length r.
Proof.
  revert s. induction p as [|i pr IH]; intros s; [by exists r|].
  destruct s as [|j sr].
  { rewrite shift_nil_r. exists (shift (i :: pr) r).
    split; [done|]. apply length_shift. }
  destruct pr as [|i' pr'].
  - cbn [app]. rewrite !shift_last. exists r. by case_decide.
  - cbn [app]. rewrite !shift_cons. case_decide; [|by exists r].
    destruct (IH sr) as (r' & Hr' & Hl). exists r'. by rewrite Hr'.
Qed.

Lemma follow_app n : ∀ k refs s r,
  ∃ r', follow k n refs (s ++ r) = follow k n refs s ++ r'
        ∧ length r' = length r.
Proof.
  induction n as [|n IH]; intros k refs s r; [by exists r|].
  cbn [follow]. destruct (refs !! k) as [h|]; [|by exists r].
  destruct (shift_app h s r) as (r1 & -> & L1).
  destruct (IH (S k) (shift h <$> refs) (shift h s) r1) as (r' & -> & L').
  exists r'. split; [done|]. congruence.
Qed.

(** X18. For every marked section with a heading, after [run] the node
    right after the heading located for it is the annotation paragraph and
    lies inside that section. *)
Theorem run_annotation_in_section (doc : node) :
  Forall2
    (λ s h', ∃ sec r,
       lookup_path (run_follow doc s) (run doc) = Some sec ∧
       matches section_informative sec = true ∧
       r ≠ [] ∧
       next_sibling h' = run_follow doc s ++ r ∧
       lookup_path r sec = Some annotation)
    (sections_with_heading doc) (run_refs doc).2.
Proof.
  pose proof (omap_filter_Forall2 (heading_of doc)
                (querySelectorAll section_informative doc)) as HF.
  fold (sections_with_heading doc) in HF. fold (located_headings doc) in HF.
  destruct (forEach_after_spec (length (located_headings doc)) 0
              (located_headings doc) doc) as (_ & Hl & Hr);
    [lia | apply located_headings_heading_at | intros; lia |].
  pose proof (forEach_after_refs (length (located_headings doc)) 0
                (located_headings doc) doc) as Hrefs.
  fold (run_refs doc) in Hl, Hr, Hrefs. fold (run doc) in Hr.
  pose proof (Forall2_length _ _ _ HF) as Hlen.
  apply Forall2_same_length_lookup_2; [lia|].
  intros j s h' Hs Hh'.
  destruct (Forall2_lookup_l _ _ _ _ _ HF Hs) as (h & Hh & Hof).
  destruct (Hr j h h' Hh Hh') as (_ & Hann).
  destruct (heading_of_Some _ _ _ Hof) as (n & h0 & Hn & Hq & ->).
  assert (Hsec : matches section_informative n = true).
  { apply list_elem_of_lookup_2 in Hs. unfold sections_with_heading in Hs.
    apply list_elem_of_filter in Hs as [_ Hs].
    apply elem_of_querySelectorAll in Hs as (_ & n' & Hn' & ?). congruence. }
  destruct (forEach_after_keeps (length (located_headings doc)) 0
              (located_headings doc) doc s n
              (located_headings_heading_at doc) Hn) as (sec & Hsec' & Hlab).
  change (lookup_path (run_follow doc s) (run doc) = Some sec) in Hsec'.
  assert (E : h' = run_follow doc (s ++ h0)).
  { rewrite Hrefs, list_lookup_fmap, Hh in Hh'. by injection Hh' as <-. }
  destruct (follow_app (length (located_headings doc)) 0 (located_headings doc)
              s h0) as (r0 & Hr0 & L0).
  fold (run_follow doc (s ++ h0)) (run_follow doc s) in Hr0.
  apply querySelector_Some in Hq as (Hne0 & _).
  assert (Hr0ne : r0 ≠ []) by (intros ->; by destruct h0).
  rewrite E, Hr0, next_sibling_app in Hann |- * by done.
  exists sec, (next_sibling r0). split; [done|].
  split; [by rewrite (matches_label _ _ _ Hlab)|].
  split; [by apply next_sibling_not_nil|]. split; [done|].
  rewrite lookup_path_app, Hsec' in Hann. exact Hann.
Qed.

(** *** Matches after an insertion *)

Lemma indexed_nil g : indexed g [] = [].
Proof. reflexivity. Qed.

Lemma indexed_cons g ps ls :
  indexed g (ps :: ls) = (cons (g 0) <$> ps) ++ indexed (g ∘ S) ls.
Proof. reflexivity. Qed.

Lemma indexed_app g l1 l2 :
  indexed g (l1 ++ l2) = indexed g l1 ++ indexed (λ k, g (length l1 + k)) l2.
Proof.
  unfold indexed. by rewrite imap_app, join_app.
Qed.

Lemma indexed_ext g g' ls :
  (∀ k, k < length ls → g k = g' k) → indexed g ls = indexed g' ls.
Proof.
  revert g g'. induction ls as [|ps ls IH]; intros g g' H; [done|].
  rewrite !indexed_cons. rewrite (H 0) by (cbn; lia). f_equal.
  apply IH. intros k Hk. apply H. cbn. lia.
Qed.

Lemma fmap_indexed (h : path → path) (g g' : nat → nat) ls :
  (∀ k r, k < length ls → h (g k :: r) = g' k :: r) →
  h <$> indexed g ls = indexed g' ls.
Proof.
  revert g g'. induction ls as [|ps ls IH]; intros g g' H; [done|].
  rewrite !indexed_cons, fmap_app. f_equal.
  - rewrite <- list_fmap_compose. apply list_fmap_ext. intros i r _.
    apply H. cbn. lia.
  - apply IH. intros k r Hk. apply H. cbn. lia.
Qed.

Lemma alter_middle {A} (f : A → A) (l : list A) i x :
  l !! i = Some x → alter f i l = take i l ++ f x :: drop (S i) l.
Proof.
  revert i. induction l as [|y l IH]; intros [|i] H; try done.
  - cbn in H. by injection H as ->.
  - cbn in H. cbn. by rewrite (IH i H).
Qed.

Section Matching.
Variable f : node → bool.
Variable new : node.
Hypothesis f_label : ∀ m m', label m' = label m → f m' = f m.
Hypothesis new_none : matching f new = [].

Lemma matching_eq (n : node) :
  matching f n = (if f n then [[]] else [])
                 ++ indexed id (matching f <$> children n).
Proof. destruct n; [reflexivity|]. cbn. by rewrite app_nil_r. Qed.

Lemma matching_after (p : path) : ∀ root,
  is_Some (lookup_path p root) →
  matching f (after p new root) = shift p <$> matching f root.
Proof.
  induction p as [|i pr IH]; intros root Hp.
  { cbn. by rewrite list_fmap_id. }
  rewrite lookup_path_cons in Hp.
  destruct (children root !! i) as [c|] eqn:Hc; [|by destruct Hp].
  cbn in Hp.
  destruct (children_Some_Element _ _ _ Hc) as (t & a & cl & ch & ->).
  cbn [children] in Hc.
  assert (Hi : i < length ch) by (by apply lookup_lt_Some in Hc).
  rewrite (matching_eq (Element t a cl ch)), fmap_app. cbn [children].
  destruct pr as [|i' pr'].
  - rewrite after_last. cbn [children]. destruct (decide (i < length ch)); [|lia].
    cbn [set_children]. rewrite matching_eq. cbn [children]. f_equal.
    { rewrite (f_label (Element t a cl ch) (Element t a cl _)) by done.
      by destruct (f _). }
    rewrite (fmap_indexed (shift [i]) id (λ k, if decide (i < k) then S k else k)).
    2:{ intros k r _. unfold id. rewrite shift_last. by case_decide. }
    rewrite <- (take_drop (S i) ch) at 3.
    rewrite !fmap_app, fmap_cons, !indexed_app, indexed_cons, new_none.
    rewrite fmap_nil, app_nil_l, !length_fmap, length_take, Nat.min_l by lia.
    f_equal.
    + apply indexed_ext. intros k Hk.
      rewrite length_fmap, length_take in Hk. unfold id. case_decide; lia.
    + apply indexed_ext. intros k _. unfold compose, id. case_decide; lia.
  - rewrite after_cons. cbn [children set_children]. rewrite matching_eq.
    cbn [children]. f_equal.
    { rewrite (f_label (Element t a cl ch) (Element t a cl _)) by done.
      by destruct (f _). }
    rewrite (alter_middle _ _ _ _ Hc).
    rewrite <- (take_drop_middle ch i c Hc) at 3.
    rewrite !fmap_app, !fmap_cons, !indexed_app, !indexed_cons, !fmap_app.
    rewrite !length_fmap.
    f_equal; [|f_equal].
    + symmetry. apply fmap_indexed. intros k r Hk.
      rewrite length_fmap, length_take in Hk.
      rewrite shift_cons, decide_False; [done|]. unfold id. lia.
    + rewrite (IH c Hp), <- !list_fmap_compose. apply list_fmap_ext.
      intros k r _. unfold compose. rewrite Nat.add_0_r.
      rewrite shift_cons, decide_True; [done|].
      rewrite length_take. unfold id. lia.
    + symmetry. apply fmap_indexed. intros k r Hk. unfold compose.
      rewrite shift_cons, decide_False; [done|].
      rewrite length_take. unfold id. lia.
Qed.

Lemma querySelectorAll_after_gen (p : path) (root : node) :
  is_Some (lookup_path p root) →
  indexed id (matching f <$> children (after p new root))
  = shift p <$> indexed id (matching f <$> children root).
Proof.
  intros Hp. pose proof (matching_after p root Hp) as H.
  rewrite !matching_eq, fmap_app in H.
  assert (E : f (after p new root) = f root).
  { apply f_label. destruct p as [|i [|]]; [done| |].
    - rewrite after_last. case_decide; by rewrite ?label_set_children.
    - rewrite after_cons. by rewrite label_set_children. }
  rewrite E in H. destruct (f root).
  - cbn in H. rewrite shift_nil_r in H. by injection H.
  - exact H.
Qed.
End Matching.

Lemma querySelectorAll_after sel p root :
  matching (matches sel) annotation = [] →
  is_Some (lookup_path p root) →
  querySelectorAll sel (after p annotation root)
  = shift p <$> querySelectorAll sel root.
Proof.
  intros Hnew Hp.
  apply (querySelectorAll_after_gen (matches sel) annotation); [|done..].
  intros m m'. apply matches_label.
Qed.

Lemma heading_of_nil doc : heading_of doc [] = querySelector heading_levels doc.
Proof. unfold heading_of. cbn. by destruct (querySelector _ _). Qed.

Lemma heading_of_cons doc j x c :
  children doc !! j = Some c → heading_of doc (j :: x) = cons j <$> heading_of c x.
Proof.
  intros H. unfold heading_of. cbn. rewrite H. cbn.
  destruct (lookup_path x c) as [n|]; [|done]. cbn.
  by destruct (querySelector _ _).
Qed.

(** The heading found in a section is the same node once a paragraph has
    been inserted somewhere. *)
Lemma heading_of_after h : ∀ doc s,
  is_Some (lookup_path h doc) →
  is_Some (lookup_path s doc) →
  heading_of (after h annotation doc) (shift h s) = shift h <$> heading_of doc s.
Proof.
  induction h as [|i pr IH]; intros doc s Hh Hs.
  { change (shift [] s) with s. cbn [after].
    destruct (heading_of doc s) as [x|]; reflexivity. }
  destruct s as [|j sr].
  { rewrite shift_nil_r, !heading_of_nil. unfold querySelector.
    rewrite querySelectorAll_after by done.
    by destruct (querySelectorAll _ _). }
  rewrite lookup_path_cons in Hh, Hs.
  destruct (children doc !! i) as [c|] eqn:Hc; [|by destruct Hh].
  destruct (children doc !! j) as [cj|] eqn:Hcj; [|by destruct Hs].
  cbn in Hh, Hs.
  destruct (children_Some_Element _ _ _ Hc) as (t & a & cl & ch & ->).
  cbn [children] in Hc, Hcj.
  assert (Hi : i < length ch) by (by apply lookup_lt_Some in Hc).
  rewrite (heading_of_cons _ j sr cj) by done.
  destruct pr as [|i' pr'].
  - rewrite after_last, shift_last. cbn [children].
    destruct (decide (i < length ch)); [|lia]. cbn [set_children].
    pose proof (lookup_insert_sibling ch i annotation j Hi) as L.
    rewrite Hcj in L. revert L.
    destruct (heading_of cj sr) as [x|] eqn:Ex; cbn; case_decide; intros L;
      rewrite (heading_of_cons _ _ _ cj) by done; by rewrite Ex.
  - rewrite after_cons, shift_cons. cbn [children set_children].
    case_decide as Hij.
    + subst j. assert (cj = c) as -> by congruence.
      rewrite (heading_of_cons _ i _ (after (i' :: pr') annotation c)).
      2:{ cbn [children]. rewrite list_lookup_alter, Hc. by rewrite decide_True. }
      rewrite IH by done. destruct (heading_of c sr) as [x|]; [|done].
      change (Some (i :: shift (i' :: pr') x)
              = Some (shift (i :: i' :: pr') (i :: x))).
      by rewrite shift_cons, decide_True.
    + rewrite (heading_of_cons _ j _ cj).
      2:{ cbn [children]. rewrite list_lookup_alter, Hcj. by rewrite decide_False. }
      destruct (heading_of cj sr) as [x|]; [|done].
      change (Some (j :: x) = Some (shift (i :: i' :: pr') (j :: x))).
      by rewrite shift_cons, decide_False.
Qed.

Lemma omap_fmap_shift (f g : path → option path) (k : path → path) (l : list path) :
  (∀ x, x ∈ l → g (k x) = k <$> f x) → omap g (k <$> l) = k <$> omap f l.
Proof.
  induction l as [|x l IH]; intros H; [done|].
  rewrite fmap_cons. cbn [omap list_omap]. rewrite (H x) by left.
  rewrite IH by (intros y Hy; apply H; by right).
  by destruct (f x).
Qed.

(** The headings located after an insertion are the headings located
    before it, re-indexed. *)
Lemma located_headings_after doc h :
  is_Some (lookup_path h doc) →
  located_headings (after h annotation doc) = shift h <$> located_headings doc.
Proof.
  intros Hh. unfold located_headings.
  rewrite querySelectorAll_after by done.
  apply omap_fmap_shift. intros s Hs.
  apply heading_of_after; [done|].
  apply elem_of_querySelectorAll in Hs as (_ & m & -> & _). eauto.
Qed.

Lemma forEach_after_located n : ∀ k refs doc,
  (∀ h, h ∈ refs → heading_at doc h) →
  located_headings (forEach_after k n refs doc).1
  = follow k n refs <$> located_headings doc.
Proof.
  induction n as [|n IH]; intros k refs doc Hrefs.
  { cbn. by rewrite list_fmap_id. }
  cbn [forEach_after follow].
  destruct (refs !! k) as [h|] eqn:Hh; [|cbn; by rewrite list_fmap_id].
  assert (Hat : heading_at doc h) by (apply Hrefs; by eapply list_elem_of_lookup_2).
  rewrite IH.
  - rewrite located_headings_after by (destruct Hat as (_ & m & -> & _); eauto).
    rewrite <- list_fmap_compose. done.
  - intros h' Hh'. apply list_elem_of_fmap in Hh' as (q & -> & Hq).
    apply heading_at_shift; auto.
Qed.

Lemma run_count doc :
  count_annotations (run doc)
  = count_annotations doc + length (sections_with_heading doc).
Proof.
  unfold run, run_refs. rewrite <- length_located_headings.
  apply forEach_after_spec; [done| |intros j h Hj; lia].
  apply located_headings_heading_at.
Qed.

(** X19. [run] is not idempotent: a second run locates the same
    headings, where the first run left them, and annotates every one of
    them again, so that the document holds two more annotation paragraphs
    per marked section with a heading than it did at first. *)
Theorem run_twice (doc : node) :
  located_headings (run doc) = (run_refs doc).2 ∧
  count_annotations (run (run doc))
  = count_annotations doc + 2 * length (sections_with_heading doc).
Proof.
  assert (E : located_headings (run doc) = (run_refs doc).2).
  { unfold run, run_refs. rewrite forEach_after_located, forEach_after_refs; [done|].
    apply located_headings_heading_at. }
  split; [done|].
  rewrite (run_count (run doc)), run_count.
  rewrite <- !length_located_headings, E.
  unfold run_refs. rewrite forEach_after_refs, length_fmap. lia.
Qed.

(** *** On concrete documents *)

Lemma run_nothing_to_annotate_witness :
  sections_with_heading doc_aside = [] ∧ run doc_aside = doc_aside.
Proof.
  assert (H : sections_with_heading doc_aside = []) by reflexivity.
  split; [exact H|]. exact (run_nothing_to_annotate doc_aside H).
Defined.

Lemma run_keeps_nodes_witness :
  ∃ m', lookup_path (run_follow doc_mixed [1]) (run doc_mixed) = Some m' ∧
        label m' = Element "section" [] ["informative"] [].
Proof.
  apply (run_keeps_nodes doc_mixed [1]
           (Element "section" [] ["informative"]
              [Element "p" [] [] [Text "Aside."]])).
  reflexivity.
Defined.

End InformativeLaws.

(** ** More on the build script *)

Module BuilderLaws.
Import Builder BuilderSpec Samples.

(** *** Strings *)

Lemma append_cons x (a b : string) : String x a +:+ b = String x (a +:+ b).
Proof. reflexivity. Qed.

Lemma append_assoc (a b c : string) : (a +:+ b) +:+ c = a +:+ (b +:+ c).
Proof. induction a as [|x a IH]; [done|]. rewrite !append_cons. by f_equal. Qed.

Lemma append_nil_r (a : string) : a +:+ "" = a.
Proof. induction a as [|x a IH]; [done|]. rewrite append_cons. by f_equal. Qed.



Lemma substring_all (s : string) : String.substring 0 (String.length s) s = s.
Proof.
  induction s as [|x s IH]; [done|]. cbn [String.length String.substring].
  by f_equal.
Qed.

Lemma substring_skip (p r : string) :
  String.substring (String.length p) (String.length (p +:+ r) - String.length p)
                   (p +:+ r) = r.
Proof.
  induction p as [|x p IH].
  - cbn [String.length]. rewrite Nat.sub_0_r. apply substring_all.
  - rewrite append_cons. cbn [String.length String.substring Nat.sub]. exact IH.
Qed.

Lemma prefix_true (p s : string) :
  String.prefix p s = true ↔ ∃ r, s = p +:+ r.
Proof.
  revert s. induction p as [|x p IH]; intros s.
  - split; [intros _; by exists s|]. by destruct s.
  - destruct s as [|y s]; cbn [String.prefix].
    + split; [done|]. intros [r Hr]. by rewrite append_cons in Hr.
    + destruct (ascii_dec x y) as [->|Hne].
      * rewrite IH. split; intros [r Hr]; exists r.
        -- rewrite append_cons. by f_equal.
        -- rewrite append_cons in Hr. by injection Hr.
      * split; [done|]. intros [r Hr]. rewrite append_cons in Hr.
        injection Hr as ? ?. done.
Qed.

(** [s.replace(pat, rep)]: the first occurrence of [pat], when there is one,
    is what is replaced. *)
Lemma replace_first_spec (pat rep s : string) :
  ((∀ a b, s ≠ a +:+ pat +:+ b) → replace_first pat rep s = s) ∧
  ((∃ a b, s = a +:+ pat +:+ b) →
   ∃ a b, s = a +:+ pat +:+ b ∧
          replace_first pat rep s = a +:+ rep +:+ b ∧
          ∀ a' b', s = a' +:+ pat +:+ b' → (String.length a ≤ String.length a')%nat).
Proof.
  induction s as [|c s [IH1 IH2]].
  - split.
    + intros H. cbn [replace_first].
      destruct (String.prefix pat "") eqn:E; [|done].
      apply prefix_true in E as [r Hr]. destruct (H "" r). exact Hr.
    + intros (a & b & H). destruct a; [|by rewrite append_cons in H].
      destruct pat; [|by rewrite !append_cons in H].
      exists "", "". split; [done|]. split; [|intros; cbn; lia].
      cbn. by rewrite append_nil_r.
  - cbn [replace_first].
    destruct (String.prefix pat (String c s)) eqn:E.
    + apply prefix_true in E as [r Hr]. split.
      * intros H. destruct (H "" r). exact Hr.
      * intros _. exists "", r. split; [exact Hr|]. split.
        -- rewrite Hr. by rewrite substring_skip.
        -- intros; cbn; lia.
    + assert (Hno : ∀ b, String c s ≠ pat +:+ b).
      { intros b Hb. assert (String.prefix pat (String c s) = true).
        { apply prefix_true. eauto. } congruence. }
      split.
      * intros H. f_equal. apply IH1. intros a b Hab.
        apply (H (String c a) b). rewrite append_cons. by f_equal.
      * intros (a & b & Hab). destruct a as [|x a]; [by destruct (Hno b)|].
        rewrite append_cons in Hab. injection Hab as -> Hab.
        destruct IH2 as (a0 & b0 & H0 & Hr0 & Hmin); [eauto|].
        exists (String x a0), b0. rewrite !append_cons.
        split; [by f_equal|]. split; [by f_equal|].
        intros a' b' H'. destruct a' as [|x' a']; [by destruct (Hno b')|].
        rewrite append_cons in H'. injection H' as _ H'.
        cbn [String.length]. specialize (Hmin a' b' H'). lia.
Qed.

(** *** appendBoilerplate *)

Lemma appendBoilerplate_ok (outPath version name : string) (s : state) js map :
  fs s !! outPath = Some js → fs s !! map_of outPath name = Some map →
  outPath ≠ map_of outPath name →
  ∃ s', appendBoilerplate outPath version name s = (inr tt, s') ∧
        console s' = console s ∧
        fs s' !! outPath = Some (banner version +:+ js) ∧
        fs s' !! map_of outPath name = Some (shifted_map map) ∧
        ∀ f, f ≠ outPath → f ≠ map_of outPath name → fs s' !! f = fs s !! f.
Proof.
  intros Hjs Hmap Hne. unfold appendBoilerplate.
  erewrite bind_inr by (unfold readFile; by rewrite Hjs).
  erewrite bind_inr by (unfold readFile; fold (map_of outPath name); by rewrite Hmap).
  erewrite bind_inr by reflexivity.
  eexists. split; [reflexivity|]. cbn [fs console].
  fold (map_of outPath name).
  split; [done|]. split; [|split].
  - rewrite lookup_insert_ne by done. rewrite lookup_insert_eq.
    f_equal. unfold banner. by rewrite !append_assoc.
  - by rewrite lookup_insert_eq.
  - intros f H1 H2. by rewrite !lookup_insert_ne.
Qed.

(** X11. When the bundle and its map are two files that can be read,
    the source map that [appendBoilerplate] writes is the one it read
    with two semicolons put right after the first occurrence of the key
    [mappings_key], the rest kept as it was; a map without the key is
    written back unchanged. *)
Theorem appendBoilerplate_shifts_mappings
    (outPath version name : string) (s : state) (js sourceMap : string) :
  fs s !! outPath = Some js →
  fs s !! map_of outPath name = Some sourceMap →
  outPath ≠ map_of outPath name →
  ∃ s' written,
    appendBoilerplate outPath version name s = (inr tt, s') ∧
    fs s' !! map_of outPath name = Some written ∧
    ((∀ a b, sourceMap ≠ a +:+ mappings_key +:+ b) → written = sourceMap) ∧
    ((∃ a b, sourceMap = a +:+ mappings_key +:+ b) →
     ∃ a b, sourceMap = a +:+ mappings_key +:+ b ∧
            written = a +:+ mappings_key +:+ ";;" +:+ b ∧
            ∀ a' b', sourceMap = a' +:+ mappings_key +:+ b' →
                     (String.length a ≤ String.length a')%nat).
Proof.
  intros Hjs Hmap Hne.
  destruct (appendBoilerplate_ok outPath version name s js sourceMap Hjs Hmap Hne)
    as (s' & Hr & _ & _ & Hw & _).
  exists s', (shifted_map sourceMap). split; [exact Hr|]. split; [exact Hw|].
  destruct (replace_first_spec mappings_key (mappings_key +:+ ";;") sourceMap)
    as [H1 H2].
  split; [exact H1|].
  intros H. destruct (H2 H) as (a & b & Hs & Hrep & Hmin).
  exists a, b. split; [exact Hs|]. split; [|exact Hmin].
  rewrite append_assoc in Hrep. exact Hrep.
Qed.

(** X12. When the bundle and its map are two files that can be read,
    [appendBoilerplate] rewrites them and touches no other file and not
    the console: the bundle gets the banner with the version in front, the
    map is shifted.  When the bundle or the map cannot be read it fails
    with the error of a file, the bundle or the map, that could not be
    read, and nothing is written. *)
Theorem appendBoilerplate_spec (outPath version name : string) (s : state) :
  (∀ js map,
     fs s !! outPath = Some js → fs s !! map_of outPath name = Some map →
     outPath ≠ map_of outPath name →
     ∃ s', appendBoilerplate outPath version name s = (inr tt, s') ∧
           console s' = console s ∧
           fs s' !! outPath = Some (banner version +:+ js) ∧
           fs s' !! map_of outPath name = Some (shifted_map map) ∧
           ∀ f, f ≠ outPath → f ≠ map_of outPath name → fs s' !! f = fs s !! f) ∧
  (fs s !! outPath = None ∨ fs s !! map_of outPath name = None →
   ∃ f, (f = outPath ∨ f = map_of outPath name) ∧ fs s !! f = None ∧
        appendBoilerplate outPath version name s = (inl (NoSuchFile f), s)).
Proof.
  split.
  - intros js map. apply appendBoilerplate_ok.
  - intros H. unfold appendBoilerplate.
    destruct (fs s !! outPath) as [js|] eqn:Hjs.
    + destruct H as [|Hmap]; [done|].
      exists (map_of outPath name). split; [by right|]. split; [done|].
      erewrite bind_inr by (unfold readFile; by rewrite Hjs).
      erewrite bind_inl
        by (unfold readFile; fold (map_of outPath name); by rewrite Hmap).
      done.
    + exists outPath. split; [by left|]. split; [done|].
      erewrite bind_inl by (unfold readFile; by rewrite Hjs). done.
Qed.

(** *** Paths *)










Section Script.
Variable root : string.
Variable resolve : string → option string.
Variable webpack : config → M stats.
Variable commandLineArgs : list string → error + parsedArgs.
Variable usage : string.
Variable version_of : string → error + string.

Local Abbreviation build := (build root resolve webpack version_of).
Local Abbreviation run :=
  (run root resolve webpack commandLineArgs usage version_of).
Local Abbreviation getRespecVersion := (getRespecVersion root version_of).

Lemma getRespecVersion_state s : (getRespecVersion s).2 = s.
Proof.
  unfold Builder.getRespecVersion, readFile, mbind, M_bind.
  destruct (fs s !! _); [|done]. by destruct (version_of _).
Qed.


Lemma getRespecVersion_missing s :
  fs s !! (root +:+ "/package.json") = None →
  getRespecVersion s = (inl (NoSuchFile (root +:+ "/package.json")), s).
Proof.
  intros Hc. unfold Builder.getRespecVersion, readFile, mbind, M_bind.
  by rewrite Hc.
Qed.

(** X13. [build] fails before the bundler is run when the name is
    missing, when package.json cannot be read, or when one of the two
    modules cannot be resolved: no file is written, and but for the
    missing name the only trace is the line printed first. *)
Theorem build_fails_before_bundling (name : option string) (dbg : bool) (s : state) :
  (missing name = true →
   build name dbg s = (inl (TypeError "name is required"), s)) ∧
  (∀ n, name = Some n → missing name = false →
        fs s !! (root +:+ "/package.json") = None
        ∨ resolve (profile_module n) = None
        ∨ resolve "../js/shortcut.js" = None →
        ∃ e s', build name dbg s = (inl e, s') ∧ s' = logged n s).
Proof.
  split.
  - intros Hm. unfold Builder.build. by rewrite Hm.
  - intros n -> Hm H. unfold Builder.build. rewrite Hm. cbn [from_option id].
    erewrite bind_inr by reflexivity. fold (logged n s).
    pose proof (getRespecVersion_state (logged n s)) as Hst.
    destruct (getRespecVersion (logged n s)) as [[e|v] s1] eqn:Hv;
      cbn in Hst; subst s1.
    { erewrite bind_inl by exact Hv. eauto. }
    erewrite bind_inr by exact Hv.
    destruct (resolve (profile_module n)) as [f1|] eqn:H1.
    2:{ erewrite bind_inl by (by apply require_resolve_None). eauto. }
    erewrite bind_inr by (by apply require_resolve_Some).
    destruct (resolve "../js/shortcut.js") as [f2|] eqn:H2.
    2:{ erewrite bind_inl by (by apply require_resolve_None). eauto. }
    destruct H as [H|[H|H]]; [|done|done].
    rewrite getRespecVersion_missing in Hv by done. done.
Qed.


(** X15. Unless the arguments ask for a build, the script writes no file
    and does not exit with code 1; with neither [--help] nor a profile it
    returns without printing anything and without calling [process.exit]. *)
Theorem run_without_build (argv : list string) (s : state) :
  (∀ a, commandLineArgs argv = inr a →
        help a = true ∨ missing (profile a) = true) →
  fs (run argv s).2 = fs s ∧
  (run argv s).1 ≠ Exit 1 ∧
  (∀ a, commandLineArgs argv = inr a → help a = false →
        run argv s = (Returned, s)).
Proof.
  intros H. unfold Builder.run.
  destruct (commandLineArgs argv) as [err|a].
  { split; [done|]. split; [discriminate|]. by intros a [=]. }
  destruct (H a eq_refl) as [Hh|Hm].
  - rewrite Hh. cbn. split; [done|]. split; [discriminate|].
    intros a' [= <-]. congruence.
  - destruct (help a) eqn:Hh.
    + split; [done|]. split; [discriminate|]. intros a' [= <-]. congruence.
    + rewrite Hm. split; [done|]. split; [discriminate|]. done.
Qed.

End Script.

(** *** On a concrete project *)

Lemma appendBoilerplate_shifts_mappings_witness :
  ∃ s' written,
    appendBoilerplate "/respec/builds/respec-netage.js" "24.0.0" "netage"
      built_files = (inr tt, s') ∧
    fs s' !! "/respec/builds/respec-netage.js.map" = Some written ∧
    ∃ a b, sample_map = a +:+ mappings_key +:+ b ∧
           written = a +:+ mappings_key +:+ ";;" +:+ b ∧
           ∀ a' b', sample_map = a' +:+ mappings_key +:+ b' →
                    (String.length a ≤ String.length a')%nat.
Proof.
  destruct (appendBoilerplate_shifts_mappings "/respec/builds/respec-netage.js"
              "24.0.0" "netage" built_files "bundle" sample_map)
    as (s' & written & Hr & Hw & _ & Hkey).
  - reflexivity.
  - reflexivity.
  - intros H. vm_compute in H. discriminate H.
  - exists s', written. split; [exact Hr|]. split; [exact Hw|].
    apply Hkey. exists "{", "AAAA;BBBB". reflexivity.
Defined.

Lemma appendBoilerplate_spec_witness :
  (∃ s', appendBoilerplate "/respec/builds/respec-netage.js" "24.0.0" "netage"
           built_files = (inr tt, s') ∧
         fs s' !! "/respec/builds/respec-netage.js"
           = Some (banner "24.0.0" +:+ "bundle") ∧
         fs s' !! "/respec/builds/respec-netage.js.map"
           = Some (shifted_map sample_map) ∧
         fs s' !! "/respec/worker/respec-worker.js" = Some "worker") ∧
  (∃ f, (f = "/respec/builds/respec-netage.js"
         ∨ f = map_of "/respec/builds/respec-netage.js" "netage") ∧
        fs project_files !! f = None ∧
        appendBoilerplate "/respec/builds/respec-netage.js" "24.0.0" "netage"
          project_files = (inl (NoSuchFile f), project_files)).
Proof.
  split.
  - destruct (proj1 (appendBoilerplate_spec "/respec/builds/respec-netage.js"
                       "24.0.0" "netage" built_files) "bundle" sample_map)
      as (s' & Hr & _ & Hjs & Hmap & Hother).
    + reflexivity.
    + reflexivity.
    + intros H. vm_compute in H. discriminate H.
    + exists s'. split; [exact Hr|]. split; [exact Hjs|]. split; [exact Hmap|].
      rewrite Hother; [reflexivity | |]; intros H; vm_compute in H; discriminate H.
  - apply (proj2 (appendBoilerplate_spec "/respec/builds/respec-netage.js"
                    "24.0.0" "netage" project_files)).
    left. reflexivity.
Defined.

Lemma build_fails_before_bundling_witness :
  ∃ e s', build project_root project_resolve bundler_ok read_version
            (Some "w3c") false project_files = (inl e, s') ∧
          s' = logged "w3c" project_files.
Proof.
  apply (proj2 (build_fails_before_bundling project_root project_resolve
                  bundler_ok read_version (Some "w3c") false project_files)
           "w3c"); [reflexivity | reflexivity |].
  right. left. reflexivity.
Defined.


Lemma run_without_build_witness :
  fs (run project_root project_resolve bundler_ok parse_args "usage"
          read_version ["--help"] project_files).2 = fs project_files ∧
  (run project_root project_resolve bundler_ok parse_args "usage"
       read_version ["--help"] project_files).1 ≠ Exit 1.
Proof.
  destruct (run_without_build project_root project_resolve bundler_ok
              parse_args "usage" read_version ["--help"] project_files)
    as (Hfs & Hexit & _).
  - intros a Ha. injection Ha as <-. left. reflexivity.
  - split; [exact Hfs | exact Hexit].
Defined.

End BuilderLaws.
